(* Verification model of the "standard" template driver of webx-top/echo
   (middleware/render/standard/standard.go): directive scanning, include
   expansion, Function clips, Extend/Block resolution, the compiled-tree
   cache and the Render/Fetch entry points. *)

From Stdlib Require Import Ascii String.
From stdpp Require Import base gmap strings list fin_maps.

Open Scope string_scope.
Local Infix "+:+" := String.append (at level 60, right associativity).

(* ===================================================================== *)
(** * Go strings and the [strings] package                               *)
(* ===================================================================== *)

Module GoStr.

(** [s[i:]] *)
Fixpoint sdrop (i : nat) (s : string) : string :=
  match i, s with
  | 0, _ => s
  | S i', String _ s' => sdrop i' s'
  | S _, EmptyString => EmptyString
  end.

(** [s[:i]] *)
Fixpoint stake (i : nat) (s : string) : string :=
  match i, s with
  | 0, _ => EmptyString
  | S i', String c s' => String c (stake i' s')
  | S _, EmptyString => EmptyString
  end.

(** [strings.HasPrefix s l], returning what follows the prefix. *)
Fixpoint strip_prefix (l s : string) : option string :=
  match l with
  | EmptyString => Some s
  | String a l' =>
      match s with
      | String b s' => if Ascii.eqb a b then strip_prefix l' s' else None
      | EmptyString => None
      end
  end.

Definition has_prefix (l s : string) : bool :=
  match strip_prefix l s with Some _ => true | None => false end.

(** [strings.Index(s, sub)]: first position of [sub] in [s]. *)
Fixpoint index (sub s : string) : option nat :=
  if has_prefix sub s then Some 0 else
  match s with
  | String _ s' => match index sub s' with Some n => Some (S n) | None => None end
  | EmptyString => None
  end.

(** [strings.Contains(s, sub)] *)
Definition contains (s sub : string) : bool :=
  match index sub s with Some _ => true | None => false end.

(** [strings.Replace(s, old, new, 1)] *)
Definition replace1 (s old new : string) : string :=
  match index old s with
  | Some i => stake i s +:+ new +:+ sdrop (i + String.length old) s
  | None => s
  end.

(** [strings.Replace(s, old, new, -1)] for a non-empty [old]: a left to
    right scan; [skip] counts the bytes of a replaced occurrence that are
    still to be dropped. *)
Fixpoint replace_all_go (old new : string) (skip : nat) (s : string) : string :=
  match s with
  | EmptyString => EmptyString
  | String c s' =>
      match skip with
      | S k => replace_all_go old new k s'
      | 0 =>
          if has_prefix old s
          then new +:+ replace_all_go old new (String.length old - 1) s'
          else String c (replace_all_go old new 0 s')
      end
  end.

(** With an empty [old], Go inserts [new] before every character and at
    the end. *)
Fixpoint interleave (new s : string) : string :=
  match s with
  | EmptyString => new
  | String c s' => new +:+ String c (interleave new s')
  end.

Definition replace_all (s old new : string) : string :=
  match old with
  | EmptyString => interleave new s
  | _ => replace_all_go old new 0 s
  end.

End GoStr.
Import GoStr.

(** The double quote, as a character and as a one-byte string. *)
Definition dqc : ascii := "034"%char.
Definition dq : string := String dqc EmptyString.

(** Literal texts below write a double quote as a single quote: [Q]
    turns each single quote of its argument into a double quote. *)
Fixpoint Q (s : string) : string :=
  match s with
  | EmptyString => EmptyString
  | String c s' => String (if Ascii.eqb c "'"%char then dqc else c) (Q s')
  end.

(* ===================================================================== *)
(** * The [regexp] patterns of [InitRegexp]                               *)
(* ===================================================================== *)

(** The patterns use literals, single-byte classes, their repetitions
    (greedy or lazy), optional groups, capture groups and [^].  Matching
    follows Go's leftmost-first (Perl) preference, which is what a
    backtracking matcher that tries alternatives in preference order
    returns.  Strings are byte strings; every class of the patterns only
    distinguishes ASCII bytes, so matching byte-wise gives the same spans
    as Go's rune-wise matching. *)
Inductive re : Type :=
| RLit (l : string)
| RChar (p : ascii -> bool)
| RStar (p : ascii -> bool) (greedy : bool)
| RCat (r1 r2 : re)
| ROpt (r : re)
| RGroup (i : nat) (r : re)
| RBol.

Definition caps := list (nat * string).

Fixpoint cap (i : nat) (cs : caps) : string :=
  match cs with
  | [] => ""
  | (j, v) :: cs' => if Nat.eqb i j then v else cap i cs'
  end.

Section Matcher.
Context {R : Type}.

Fixpoint mt (r : re) (pos : nat) (s : string) (cs : caps)
    (k : nat -> string -> caps -> option R) : option R :=
  match r with
  | RLit l =>
      match strip_prefix l s with
      | Some s' => k (pos + String.length l) s' cs
      | None => None
      end
  | RChar p =>
      match s with
      | String c s' => if p c then k (S pos) s' cs else None
      | EmptyString => None
      end
  | RStar p true =>
      (fix go (pos : nat) (s : string) : option R :=
         match s with
         | String c s' =>
             if p c then
               match go (S pos) s' with
               | Some x => Some x
               | None => k pos s cs
               end
             else k pos s cs
         | EmptyString => k pos s cs
         end) pos s
  | RStar p false =>
      (fix go (pos : nat) (s : string) : option R :=
         match k pos s cs with
         | Some x => Some x
         | None =>
             match s with
             | String c s' => if p c then go (S pos) s' else None
             | EmptyString => None
             end
         end) pos s
  | RCat r1 r2 => mt r1 pos s cs (fun pos' s' cs' => mt r2 pos' s' cs' k)
  | ROpt r1 =>
      match mt r1 pos s cs k with
      | Some x => Some x
      | None => k pos s cs
      end
  | RGroup i r1 =>
      mt r1 pos s cs (fun pos' s' cs' => k pos' s' ((i, stake (pos' - pos) s) :: cs'))
  | RBol => if Nat.eqb pos 0 then k pos s cs else None
  end.

End Matcher.

(** A match of [r] starting at absolute offset [pos] of the text, whose
    remaining part is [s]: its length and captures. *)
Definition match_at (r : re) (pos : nat) (s : string) : option (nat * caps) :=
  mt r pos s [] (fun pos' _ cs => Some (pos' - pos, cs)).

(** [FindAllStringSubmatch(s, -1)]: successive non-overlapping matches,
    each as the matched text and its captures.  No pattern of the driver
    matches the empty string (each contains a literal quote or delimiter),
    so a match always advances. *)
Fixpoint scan (r : re) (pos skip : nat) (s : string) : list (string * caps) :=
  match s with
  | EmptyString => []
  | String c s' =>
      match skip with
      | S k => scan r (S pos) k s'
      | 0 =>
          match match_at r pos s with
          | Some (S n, cs) => (stake (S n) s, cs) :: scan r (S pos) n s'
          | _ => scan r (S pos) 0 s'
          end
      end
  end.

(** One row of [FindAllStringSubmatch]: [v[0]], [v[1]], [v[2]]. *)
Record submatch := { m0 : string; m1 : string; m2 : string }.

Definition to_submatch (x : string * caps) : submatch :=
  {| m0 := x.1; m1 := cap 1 x.2; m2 := cap 2 x.2 |}.

Definition FindAll (r : re) (s : string) : list submatch :=
  map to_submatch (scan r 0 0 s).

(** [FindAllStringSubmatch(s, 1)] *)
Definition FindFirst (r : re) (s : string) : list submatch :=
  firstn 1 (FindAll r s).

(** [ReplaceAllStringFunc(s, f)] *)
Fixpoint replace_scan (r : re) (f : string -> string) (pos skip : nat) (s : string) : string :=
  match s with
  | EmptyString => EmptyString
  | String c s' =>
      match skip with
      | S k => replace_scan r f (S pos) k s'
      | 0 =>
          match match_at r pos s with
          | Some (S n, _) => f (stake (S n) s) +:+ replace_scan r f (S pos) n s'
          | _ => String c (replace_scan r f (S pos) 0 s')
          end
      end
  end.

Definition ReplaceAllFunc (r : re) (s : string) (f : string -> string) : string :=
  replace_scan r f 0 0 s.

(** [ReplaceAllString(s, ``)] *)
Definition ReplaceAllEmpty (r : re) (s : string) : string :=
  ReplaceAllFunc r s (fun _ => "").

(* ===================================================================== *)
(** * The driver's configuration and [InitRegexp]                         *)
(* ===================================================================== *)

(** [\s] in Go's syntax: [\t \n \f \r] and space. *)
Definition is_space (c : ascii) : bool :=
  match nat_of_ascii c with
  | 9 | 10 | 12 | 13 | 32 => true
  | _ => false
  end.

Definition not_byte (d : ascii) (c : ascii) : bool := negb (Ascii.eqb c d).
Definition any_byte (_ : ascii) : bool := true.

(** [[\s]+] and [[^x]+] *)
Definition plus (p : ascii -> bool) : re := RCat (RChar p) (RStar p true).

Fixpoint cats (rs : list re) : re :=
  match rs with
  | [] => RLit ""
  | [r] => r
  | r :: rs' => RCat r (cats rs')
  end.

(** Values of a template function map.  User functions are opaque; the
    two helpers installed by [setFunc] are closures over a [tplInfo],
    represented by its address in the heap of [tplInfo] objects. *)
Inductive FuncVal : Type :=
| FUser (id : string)
| FHasBlock (p : nat)
| FHasAnyBlock (p : nat).

(** The parts of [echo.Context] the driver uses: [c.Funcs()] and the
    [(func(string, string) string)] values of [c.GetFunc(name)]. *)
Record Ctx := {
  c_funcs : gmap string FuncVal;
  c_getfunc : string -> option (string -> string -> string)
}.

(** The configuration fields of [Standard] (the mutable fields, the cache,
    live in the state [St] below). *)
Record Standard := {
  TemplateDir : string;
  DelimLeft : string;
  DelimRight : string;
  IncludeTag : string;
  FunctionTag : string;
  ExtendTag : string;
  BlockTag : string;
  SuperTag : string;
  StripTag : string;
  Ext : string;
  debug : bool;
  contentProcessors : list (string -> string);
  tmplPathFixer : option (Ctx -> string -> string);
  (** [self.getFuncs()]; a nil map reads as the empty map *)
  getFuncs : option (gmap string FuncVal)
}.

(** [New]: the default configuration ([TemplateDir] is the absolute
    directory given to [New]). *)
Definition New (dir : string) : Standard := {|
  TemplateDir := dir;
  DelimLeft := "{{";
  DelimRight := "}}";
  IncludeTag := "Include";
  FunctionTag := "Function";
  ExtendTag := "Extend";
  BlockTag := "Block";
  SuperTag := "Super";
  StripTag := "Strip";
  Ext := ".html";
  debug := false;
  contentProcessors := [];
  tmplPathFixer := None;
  getFuncs := None
|}.

Section Regexps.
Variable self : Standard.

(** [self.DelimRight[0:1]]; [InitRegexp] panics on an empty right
    delimiter, which no configuration of the driver uses. *)
Definition rfirst : ascii :=
  match DelimRight self with String c _ => c | EmptyString => "}"%char end.

(** The argument part shared by Include, Function and Extend: blanks, a
    quoted name (group 1), optionally blanks and a pass object made of
    bytes other than the first byte of the right delimiter (group 2),
    blanks, an optional slash and the right delimiter. *)
Definition call_args : list re := [
  plus is_space; RLit dq;
  RGroup 1 (plus (not_byte dqc)); RLit dq;
  ROpt (RCat (plus is_space) (RGroup 2 (plus (not_byte rfirst))));
  RStar is_space true; ROpt (RLit "/"); RLit (DelimRight self) ].

Definition incTagRegex : re :=
  cats ([RLit (DelimLeft self); RLit (IncludeTag self)] ++ call_args).

Definition funcTagRegex : re :=
  cats ([RLit (DelimLeft self); RLit (FunctionTag self)] ++ call_args).

Definition extTagRegex : re :=
  cats ([RBol; RStar is_space true; RLit (DelimLeft self); RLit (ExtendTag self)] ++ call_args).

(** The paired block: left delimiter, Block, blanks, the quoted name
    (group 1), blanks, right delimiter, the shortest body (group 2, any
    byte), then the closing tag {{/Block}}. *)
Definition blkTagRegex : re :=
  cats [RLit (DelimLeft self); RLit (BlockTag self); plus is_space; RLit dq;
        RGroup 1 (plus (not_byte dqc)); RLit dq; RStar is_space true;
        RLit (DelimRight self); RGroup 2 (RStar any_byte false);
        RLit (DelimLeft self); RLit "/"; RLit (BlockTag self); RLit (DelimRight self)].

(** The self-closing placeholder: like the paired opening tag but ended
    by a slash and the right delimiter. *)
Definition rplTagRegex : re :=
  cats [RLit (DelimLeft self); RLit (BlockTag self); plus is_space; RLit dq;
        RGroup 1 (plus (not_byte dqc)); RLit dq; RStar is_space true;
        RLit "/"; RLit (DelimRight self)].

(** {{Strip}}, the shortest body (group 1), {{/Strip}}. *)
Definition stripTagRegex : re :=
  cats [RLit (DelimLeft self); RLit (StripTag self); RLit (DelimRight self);
        RGroup 1 (RStar any_byte false);
        RLit (DelimLeft self); RLit "/"; RLit (StripTag self); RLit (DelimRight self)].

(** [self.Tag(content)] *)
Definition Tag (content : string) : string := DelimLeft self +:+ content +:+ DelimRight self.

End Regexps.

Definition std0 : Standard := New "/tpl".

Example scan_block_example :
  FindAll (blkTagRegex std0) (Q "a{{Block 'x'}}hi {{Super}}!{{/Block}}b{{Block 'y' }}{{/Block}}")
  = [ {| m0 := (Q "{{Block 'x'}}hi {{Super}}!{{/Block}}"); m1 := "x"; m2 := "hi {{Super}}!" |};
      {| m0 := (Q "{{Block 'y' }}{{/Block}}"); m1 := "y"; m2 := "" |} ].
Proof. vm_compute. reflexivity. Qed.

Example scan_include_example :
  FindAll (incTagRegex std0) (Q "x{{Include 'a' .Data /}}{{Include 'b'}}")
  = [ {| m0 := (Q "{{Include 'a' .Data /}}"); m1 := "a"; m2 := ".Data /" |};
      {| m0 := (Q "{{Include 'b'}}"); m1 := "b"; m2 := "" |} ].
Proof. vm_compute. reflexivity. Qed.

Example scan_extend_anchored :
  FindFirst (extTagRegex std0) (Q "  {{Extend 'L'}}{{Extend 'M'}}") =
    [ {| m0 := (Q "  {{Extend 'L'}}"); m1 := "L"; m2 := "" |} ] /\
  FindFirst (extTagRegex std0) (Q "x{{Extend 'L'}}") = [].
Proof. vm_compute. split; reflexivity. Qed.

Example replace_placeholder_example :
  ReplaceAllEmpty (rplTagRegex std0) (Q "<div>{{Block 'x'/}}</div>") = "<div></div>".
Proof. vm_compute. reflexivity. Qed.

(* ===================================================================== *)
(** * Mutable state: the cache, the [tplInfo] heap and the traces         *)
(* ===================================================================== *)

(** A value of [*html/template.Template].  [tdefs] is the name space it
    shares with the templates created from it by [New]: each name with the
    text that defines it.  The evaluator itself is a black box ([Env]). *)
Record Tmpl := {
  tname : string;
  tfuncs : gmap string FuncVal;
  tdefs : gmap string string
}.

(** [tplInfo]; it is heap allocated because the hasBlock/hasAnyBlock
    closures and [CcRel] share it. *)
Record tplInfo := {
  Template : option Tmpl;
  Blocks : gset string
}.

Definition NewTplInfo (t : option Tmpl) : tplInfo := {| Template := t; Blocks := ∅ |}.

(** [CcRel]: [Tpl[0]] (standalone) and [Tpl[1]] (as a sub-template) as
    addresses.  The [Rel] map is written but never read by any code path
    of the driver (invalidation clears the whole cache), so it is left
    out. *)
Record CcRel := { Tpl0 : nat; Tpl1 : nat }.

(** [reads], [expanded] and [calls] are traces: every [RawContent] call,
    every path that [ContainsSubTpl] registers and expands, and every call
    of a Function callback (its key, template name and argument). *)
Record St := {
  CachedRelation : gmap string CcRel;
  heap : gmap nat tplInfo;
  next : nat;
  reads : list string;
  expanded : list string;
  calls : list (string * string * string)
}.

(** State and failure.  Failure only stands for running out of the
    recursion budget of [ContainsSubTpl]; the Go code has no such case. *)
Definition M (A : Type) := St -> option (A * St).

Definition ret {A} (a : A) : M A := fun st => Some (a, st).
Definition bind {A B} (m : M A) (f : A -> M B) : M B :=
  fun st => match m st with Some (a, st') => f a st' | None => None end.
Definition stuck {A} : M A := fun _ => None.

Notation "'let*' x ':=' m 'in' k" := (bind m (fun x => k))
  (at level 200, x binder, m at level 100, k at level 200).

Definition gets {A} (f : St -> A) : M A := fun st => Some (f st, st).
Definition modify (f : St -> St) : M unit := fun st => Some (tt, f st).

Definition set_cache (c : gmap string CcRel) (st : St) : St :=
  {| CachedRelation := c; heap := heap st; next := next st; reads := reads st;
     expanded := expanded st; calls := calls st |}.
Definition set_heap (h : gmap nat tplInfo) (st : St) : St :=
  {| CachedRelation := CachedRelation st; heap := h; next := next st; reads := reads st;
     expanded := expanded st; calls := calls st |}.
Definition log_read (p : string) (st : St) : St :=
  {| CachedRelation := CachedRelation st; heap := heap st; next := next st;
     reads := reads st ++ [p]; expanded := expanded st; calls := calls st |}.
Definition log_expanded (p : string) (st : St) : St :=
  {| CachedRelation := CachedRelation st; heap := heap st; next := next st;
     reads := reads st; expanded := expanded st ++ [p]; calls := calls st |}.
Definition log_call (x : string * string * string) (st : St) : St :=
  {| CachedRelation := CachedRelation st; heap := heap st; next := next st;
     reads := reads st; expanded := expanded st; calls := calls st ++ [x] |}.

(** [&tplInfo{...}]: allocation of a fresh address. *)
Definition alloc (ti : tplInfo) : M nat :=
  fun st => Some (next st,
    {| CachedRelation := CachedRelation st; heap := <[next st := ti]> (heap st);
       next := S (next st); reads := reads st; expanded := expanded st; calls := calls st |}).

Definition read_info (p : nat) : M tplInfo :=
  gets (fun st => default (NewTplInfo None) (heap st !! p)).

Definition write_info (p : nat) (ti : tplInfo) : M unit :=
  modify (fun st => set_heap (<[p := ti]> (heap st)) st).

(* ===================================================================== *)
(** * External collaborators                                              *)
(* ===================================================================== *)

(** The content source (a watched directory or an in-memory manager: the
    readable files and the error text of an unreadable one), the
    whitespace compaction of a Strip body (the helpers of the driver
    package), [driver.CleanTemplateName], and the [html/template]
    evaluator: parse errors for a text under a function map, and
    execution of a named template. *)
Record Env := {
  fs : gmap string string;
  read_err : string -> string;
  strip_body : string -> string;
  CleanTemplateName : string -> string;
  Data : Type;
  parse_error : gmap string FuncVal -> string -> option string;
  exec : Tmpl -> string -> Data -> string * option string
}.

(** Decimal rendering of [%v] for a [uint8]. *)
Fixpoint digits (fuel n : nat) (acc : string) : string :=
  match fuel with
  | 0 => acc
  | S f =>
      let acc' := String (ascii_of_nat (48 + n mod 10)) acc in
      if Nat.ltb n 10 then acc' else digits f (n / 10) acc'
  end.

Definition show_uint8 (n : nat) : string := digits 3 n "".

Example show_uint8_ex : show_uint8 0 = "0" /\ show_uint8 7 = "7" /\ show_uint8 255 = "255".
Proof. vm_compute. repeat split. Qed.

(* ===================================================================== *)
(** * The driver                                                          *)
(* ===================================================================== *)

Section Driver.
Variable E : Env.
Variable self : Standard.

(** [TmplPath]: the path fixer, or [filepath.Join(TemplateDir, p)] (for an
    absolute clean directory and a clean relative name, Join is the
    concatenation with a separator). *)
Definition TmplPath (c : Ctx) (p : string) : string :=
  match tmplPathFixer self with
  | Some f => f c p
  | None => TemplateDir self +:+ "/" +:+ p
  end.

(** [strip] *)
Definition strip (src : string) : string :=
  if debug self then
    replace_all (replace_all src (DelimLeft self +:+ StripTag self +:+ DelimRight self) "")
                (DelimLeft self +:+ "/" +:+ StripTag self +:+ DelimRight self) ""
  else
    ReplaceAllFunc (stripTagRegex self) src (fun b =>
      strip_body E (match strip_prefix (DelimLeft self +:+ StripTag self +:+ DelimRight self) b with
                    | Some b' =>
                        let t := DelimLeft self +:+ "/" +:+ StripTag self +:+ DelimRight self in
                        if Nat.leb (String.length t) (String.length b') &&
                           String.eqb (sdrop (String.length b' - String.length t) b') t
                        then stake (String.length b' - String.length t) b' else b'
                    | None => b
                    end)).

(** [preprocess] *)
Definition preprocess (b : string) : string :=
  strip (fold_left (fun b fn => fn b) (contentProcessors self) b).

(** [RawContent]: the content, or the error text. *)
Definition RawContent (tmpl : string) : M (string + string) :=
  let* _ := modify (log_read tmpl) in
  match fs E !! tmpl with
  | Some b => ret (inl (preprocess b))
  | None => ret (inr (read_err E tmpl))
  end.

(** The reference construct that replaces an Include directive. *)
Definition include_ref (tmplFile passObject : string) : string :=
  Tag self ("template " +:+ dq +:+ CleanTemplateName E tmplFile +:+ dq +:+ " " +:+
            (if String.eqb passObject "" then "." else passObject)).

(** The loop of [ContainsSubTpl] over the Include matches; [rec] is the
    recursive call on an included file. *)
Fixpoint CST_loop (rec : Ctx -> string -> gmap string string -> M (string * gmap string string))
    (c : Ctx) (ms : list submatch) (content : string) (subcs : gmap string string)
    : M (string * gmap string string) :=
  match ms with
  | [] => ret (content, subcs)
  | v :: ms' =>
      let tmplFile := TmplPath c (m1 v +:+ Ext self) in
      let next_step subcs :=
        CST_loop rec c ms' (replace_all content (m0 v) (include_ref tmplFile (m2 v))) subcs in
      match subcs !! tmplFile with
      | Some _ => next_step subcs
      | None =>
          let* r := RawContent tmplFile in
          match r with
          | inr err => ret ("RenderTemplate " +:+ tmplFile +:+ " read err: " +:+ err, subcs)
          | inl str =>
              let* _ := modify (log_expanded tmplFile) in
              let* res := rec c str (<[tmplFile := ""]> subcs) in
              next_step (<[tmplFile := res.1]> res.2)
          end
      end
  end.

(** [ContainsSubTpl]; [fuel] bounds the recursion (a budget of one more
    than the number of readable files always suffices). *)
Fixpoint ContainsSubTpl (fuel : nat) (c : Ctx) (content : string) (subcs : gmap string string)
    : M (string * gmap string string) :=
  match fuel with
  | 0 => stuck
  | S fuel' => CST_loop (ContainsSubTpl fuel') c (FindAll (incTagRegex self) content) content subcs
  end.

(** [ContainsFunctionResult] *)
Fixpoint CFR_loop (c : Ctx) (tmplOriginalName : string) (ms : list submatch)
    (content : string) (clips : gmap string string) : M (string * gmap string string) :=
  match ms with
  | [] => ret (content, clips)
  | v :: ms' =>
      let key := m1 v +:+ ":" +:+ m2 v in
      let* clips :=
        match clips !! key with
        | Some _ => ret clips
        | None =>
            match c_getfunc c (m1 v) with
            | Some fn =>
                let* _ := modify (log_call (key, tmplOriginalName, m2 v)) in
                ret (<[key := fn tmplOriginalName (m2 v)]> clips)
            | None => ret (<[key := ""]> clips)
            end
        end in
      CFR_loop c tmplOriginalName ms' (replace_all content (m0 v) (default "" (clips !! key))) clips
  end.

Definition ContainsFunctionResult (c : Ctx) (tmplOriginalName content : string)
    (clips : gmap string string) : M (string * gmap string string) :=
  CFR_loop c tmplOriginalName (FindAll (funcTagRegex self) content) content clips.

(** [ParseBlock] *)
Fixpoint ParseBlock_loop (fuel : nat) (c : Ctx) (ms : list submatch)
    (subcs extcs : gmap string string) : M (gmap string string * gmap string string) :=
  match ms with
  | [] => ret (subcs, extcs)
  | v :: ms' =>
      let* r := ContainsSubTpl fuel c (m2 v) subcs in
      ParseBlock_loop fuel c ms' r.2 (<[m1 v := r.1]> extcs)
  end.

Definition ParseBlock (fuel : nat) (c : Ctx) (content : string) (subcs extcs : gmap string string)
    : M (gmap string string * gmap string string) :=
  ParseBlock_loop fuel c (FindAll (blkTagRegex self) content) subcs extcs.

(** The name of a placeholder match, as [ParseExtend] extracts it: the
    text between the first two double quotes. *)
Definition placeholder_name (m : string) : string :=
  let m := match index dq m with Some i => sdrop (S i) m | None => m end in
  match index dq m with Some j => stake j m | None => m end.

Definition superTag : string :=
  if String.eqb (SuperTag self) "" then "" else Tag self (SuperTag self).

(** One iteration of the loop of [ParseExtend] over the paired blocks of
    the layout, threading [content], [extcs], [rec], [sup] and [subcs]. *)
Record PEState := {
  pe_content : string;
  pe_extcs : gmap string string;
  pe_rec : gmap string nat;
  pe_sup : gmap string string;
  pe_subcs : gmap string string
}.

Fixpoint PE_loop (fuel : nat) (c : Ctx) (hasParent : bool) (passObject : string)
    (ms : list submatch) (s : PEState) : M PEState :=
  match ms with
  | [] => ret s
  | v :: ms' =>
      let matched := m0 v in
      let blockName := m1 v in
      let innerStr := m2 v in
      match pe_extcs s !! blockName with
      | Some val =>
          let '(suffix, rec) :=
            match pe_rec s !! blockName with
            | Some idx =>
                let idx := (idx + 1) mod 256 in
                ("." +:+ show_uint8 idx, <[blockName := idx]> (pe_rec s))
            | None => ("", <[blockName := 0]> (pe_rec s))
            end in
          let* r :=
            if negb (String.eqb superTag "") then
              let '(hasSuper, val, sup) :=
                match pe_sup s !! blockName with
                | Some sv => (true, sv, pe_sup s)
                | None =>
                    let h := contains val superTag in
                    (h, val, if h then <[blockName := val]> (pe_sup s) else pe_sup s)
                end in
              if hasSuper then
                let* ir := ContainsSubTpl fuel c innerStr (pe_subcs s) in
                let val := replace1 val superTag ir.1 in
                ret (val, (if String.eqb suffix "" then <[blockName := val]> (pe_extcs s)
                           else pe_extcs s), sup, ir.2)
              else ret (val, pe_extcs s, sup, pe_subcs s)
            else ret (val, pe_extcs s, pe_sup s, pe_subcs s) in
          let '(val, extcs, sup, subcs) := r in
          let '(extcs, rec) :=
            if negb (String.eqb suffix "")
            then (<[blockName +:+ suffix := val]> extcs, <[blockName +:+ suffix := 0]> rec)
            else (extcs, rec) in
          let content :=
            if hasParent then
              replace1 (pe_content s) matched
                (DelimLeft self +:+ BlockTag self +:+ " " +:+ dq +:+ blockName +:+ dq +:+
                 DelimRight self +:+ val +:+ DelimLeft self +:+ "/" +:+ BlockTag self +:+
                 DelimRight self)
            else
              replace1 (pe_content s) matched
                (Tag self ("template " +:+ dq +:+ blockName +:+ suffix +:+ dq +:+ " " +:+ passObject)) in
          PE_loop fuel c hasParent passObject ms'
            {| pe_content := content; pe_extcs := extcs; pe_rec := rec; pe_sup := sup;
               pe_subcs := subcs |}
      | None =>
          let content := if hasParent then pe_content s else replace1 (pe_content s) matched innerStr in
          PE_loop fuel c hasParent passObject ms'
            {| pe_content := content; pe_extcs := pe_extcs s; pe_rec := pe_rec s;
               pe_sup := pe_sup s; pe_subcs := pe_subcs s |}
      end
  end.

(** The layout after its placeholders are filled from [extcs]. *)
Definition fill_placeholders (content : string) (extcs : gmap string string) : string :=
  ReplaceAllFunc (rplTagRegex self) content
    (fun mt => default "" (extcs !! placeholder_name mt)).

(** [ParseExtend]: the flattened layout, its own Extend match, and the
    updated [extcs] and [subcs]. *)
Definition ParseExtend (fuel : nat) (c : Ctx) (content : string) (extcs : gmap string string)
    (passObject : string) (subcs : gmap string string)
    : M (string * list submatch * gmap string string * gmap string string) :=
  let m := FindFirst (extTagRegex self) content in
  let hasParent := negb (bool_decide (m = [])) in
  let passObject := if String.eqb passObject "" then "." else passObject in
  let content := fill_placeholders content extcs in
  let matches := FindAll (blkTagRegex self) content in
  let* s := PE_loop fuel c hasParent passObject matches
              {| pe_content := content; pe_extcs := extcs; pe_rec := ∅; pe_sup := ∅;
                 pe_subcs := subcs |} in
  (* keep only the blocks present in the layout *)
  let extcs := filter (fun kv => is_Some (pe_rec s !! kv.1)) (pe_extcs s) in
  ret (pe_content s, m, extcs, pe_subcs s).

(** The recursion budget given to [ContainsSubTpl]: one more than the
    number of readable files. *)
Definition fuel0 : nat := S (size (fs E)).

(** [setFunc] *)
Definition setFunc (p : nat) (funcMap : gmap string FuncVal) : gmap string FuncVal :=
  <["hasAnyBlock" := FHasAnyBlock p]> (<["hasBlock" := FHasBlock p]> funcMap).

(** [t.Funcs(funcMap)]: the entries are added to the shared function map. *)
Definition Funcs (t : Tmpl) (funcMap : gmap string FuncVal) : Tmpl :=
  {| tname := tname t; tfuncs := funcMap ∪ tfuncs t; tdefs := tdefs t |}.

(** [t.Parse(text)]: [t] with [text] defining its name, or nil and the
    evaluator's error. *)
Definition TParse (t : Tmpl) (text : string) : option Tmpl * option string :=
  match parse_error E (tfuncs t) text with
  | None => (Some {| tname := tname t; tfuncs := tfuncs t; tdefs := <[tname t := text]> (tdefs t) |}, None)
  | Some e => (None, Some e)
  end.

(** [tmpl.AddParseTree(name, tree)] *)
Definition AddParseTree (t : Tmpl) (name tree : string) : Tmpl :=
  {| tname := tname t; tfuncs := tfuncs t; tdefs := <[name := tree]> (tdefs t) |}.

(** [tmpl.New(name)] followed by [Parse(text)]: the new template shares
    the name space (and function map) of [tmpl]; on success both the
    updated [tmpl] and the new template are returned. *)
Definition ParseNew (tmpl : Tmpl) (name text : string) : (Tmpl * Tmpl) + string :=
  match parse_error E (tfuncs tmpl) text with
  | None =>
      let defs := <[name := text]> (tdefs tmpl) in
      inl ({| tname := tname tmpl; tfuncs := tfuncs tmpl; tdefs := defs |},
           {| tname := name; tfuncs := tfuncs tmpl; tdefs := defs |})
  | Some e => inr e
  end.

(** [t.Parse(diagnostic)] after a failed [Parse], the result ignored. *)
Definition ParseDiag (tmpl : Tmpl) (name text : string) : Tmpl :=
  match ParseNew tmpl name text with inl (tmpl', _) => tmpl' | inr _ => tmpl end.

Definition register_file (key : string) : M unit :=
  let* cache := gets CachedRelation in
  match cache !! key with
  | Some _ => ret tt
  | None =>
      let* p0 := alloc (NewTplInfo None) in
      let* p1 := alloc (NewTplInfo None) in
      modify (fun st => set_cache (<[key := {| Tpl0 := p0; Tpl1 := p1 |}]> (CachedRelation st)) st)
  end.

(** The Extend loop of [parse] ([i] counts down from 10): the flattened
    document with the include pool and the block set, or a read error. *)
Fixpoint extend_loop (c : Ctx) (i : nat) (content : string) (m : list submatch)
    (subcs extcs : gmap string string)
    : M ((string * gmap string string * gmap string string) + string) :=
  match i, m with
  | S i', v :: _ =>
      let* r := ParseBlock fuel0 c content subcs extcs in
      let extFile := TmplPath c (m1 v +:+ Ext self) in
      let* b := RawContent extFile in
      match b with
      | inr err => ret (inr err)
      | inl content =>
          let* pe := ParseExtend fuel0 c content r.2 (m2 v) r.1 in
          let '(content, m, extcs, subcs) := pe in
          let* _ := register_file extFile in
          extend_loop c i' content m subcs extcs
      end
  | _, _ => ret (inl (content, subcs, extcs))
  end.

(** The loop of [parse] over the include pool: reuse a cached
    sub-template tree, or compile the body as a [define]. *)
Fixpoint subcs_loop (c : Ctx) (tmplOriginalName : string) (items : list (string * string))
    (tmpl : Tmpl) (clips : gmap string string)
    : M (Tmpl * gmap string string * option string) :=
  match items with
  | [] => ret (tmpl, clips, None)
  | (name, subc) :: items' =>
      let* cache := gets CachedRelation in
      let* cached :=
        match cache !! name with
        | Some v => let* ti := read_info (Tpl1 v) in ret (Template ti)
        | None => ret None
        end in
      match cached with
      | Some t1 =>
          subcs_loop c tmplOriginalName items'
            (AddParseTree tmpl name (default "" (tdefs t1 !! tname t1))) clips
      | None =>
          let* r :=
            if String.eqb name (tname tmpl) then ret (inl (tmpl, tmpl, clips))
            else
              let* fr := ContainsFunctionResult c tmplOriginalName subc clips in
              let text := Tag self ("define " +:+ dq +:+ CleanTemplateName E name +:+ dq) +:+ fr.1 +:+
                          Tag self "end" in
              match ParseNew tmpl name text with
              | inl (tmpl', t) => ret (inl (tmpl', t, fr.2))
              | inr err =>
                  ret (inr (ParseDiag tmpl name ("Parse File " +:+ name +:+ " err: " +:+ err), fr.2, err))
              end in
          match r with
          | inr (tmpl', clips', err) => ret (tmpl', clips', Some err)
          | inl (tmpl', t, clips') =>
              let* _ :=
                match cache !! name with
                | Some v =>
                    let* ti := read_info (Tpl1 v) in
                    write_info (Tpl1 v) {| Template := Some t; Blocks := Blocks ti |}
                | None =>
                    let* p0 := alloc (NewTplInfo None) in
                    let* p1 := alloc (NewTplInfo (Some t)) in
                    modify (fun st => set_cache (<[name := {| Tpl0 := p0; Tpl1 := p1 |}]> (CachedRelation st)) st)
                end in
              subcs_loop c tmplOriginalName items' tmpl' clips'
          end
      end
  end.

(** The loop of [parse] over the resolved blocks. *)
Fixpoint extcs_loop (c : Ctx) (tmplOriginalName : string) (relp : nat)
    (items : list (string * string)) (tmpl : Tmpl) (clips : gmap string string)
    : M (Tmpl * gmap string string * option string) :=
  match items with
  | [] => ret (tmpl, clips, None)
  | (name, extc) :: items' =>
      let* r :=
        if String.eqb name (tname tmpl) then ret (inl (tmpl, clips))
        else
          let* fr := ContainsFunctionResult c tmplOriginalName extc clips in
          let text := Tag self ("define " +:+ dq +:+ CleanTemplateName E name +:+ dq) +:+ fr.1 +:+
                      Tag self "end" in
          match ParseNew tmpl name text with
          | inl (tmpl', _) => ret (inl (tmpl', fr.2))
          | inr err =>
              ret (inr (ParseDiag tmpl name ("Parse Block " +:+ name +:+ " err: " +:+ err), fr.2, err))
          end in
      match r with
      | inr (tmpl', clips', err) => ret (tmpl', clips', Some err)
      | inl (tmpl', clips') =>
          let* ti := read_info relp in
          let* _ := write_info relp {| Template := Template ti; Blocks := {[name]} ∪ Blocks ti |} in
          extcs_loop c tmplOriginalName relp items' tmpl' clips'
      end
  end.

(** [parse]: the compiled template (nil when even the diagnostic does not
    parse) and the error.  Go ranges over the pool and the block set in
    an unspecified order; the model uses the order of [map_to_list]. *)
Definition parse (c : Ctx) (tmplName : string) : M (option Tmpl * option string) :=
  let funcs := c_funcs c in
  let tmplOriginalName := tmplName in
  let tmplName := TmplPath c (tmplName +:+ Ext self) in
  let cachedKey := tmplName in
  let funcMap := funcs ∪ default ∅ (getFuncs self) in
  let* cache := gets CachedRelation in
  let* hit :=
    match cache !! cachedKey with
    | Some rel => let* ti := read_info (Tpl0 rel) in ret (Template ti)
    | None => ret None
    end in
  match cache !! cachedKey, hit with
  | Some rel, Some t =>
      let funcMap := setFunc (Tpl0 rel) funcMap in
      let tmpl := Funcs t funcMap in
      let* ti := read_info (Tpl0 rel) in
      let* _ := write_info (Tpl0 rel) {| Template := Some tmpl; Blocks := Blocks ti |} in
      ret (Some tmpl, None)
  | orel, _ =>
      let t0 := {| tname := CleanTemplateName E tmplName; tfuncs := ∅; tdefs := ∅ |} in
      let* rel :=
        match orel with
        | Some rel => ret rel
        | None =>
            let* p0 := alloc (NewTplInfo None) in
            let* p1 := alloc (NewTplInfo None) in
            ret {| Tpl0 := p0; Tpl1 := p1 |}
        end in
      let funcMap := setFunc (Tpl0 rel) funcMap in
      let t := Funcs t0 funcMap in
      let* b := RawContent tmplName in
      match b with
      | inr err => ret ((TParse t err).1, Some err)
      | inl content =>
          let m := FindFirst (extTagRegex self) content in
          let content := ReplaceAllEmpty (rplTagRegex self) content in
          let* ch := extend_loop c 10 content m ∅ ∅ in
          match ch with
          | inr err => ret ((TParse t err).1, Some err)
          | inl (content, subcs, extcs) =>
              let* r := ContainsSubTpl fuel0 c content subcs in
              let '(content, subcs) := r in
              let* r := ContainsFunctionResult c tmplOriginalName content ∅ in
              let '(content, clips) := r in
              match TParse t content with
              | (Some tmpl, None) =>
                  let* r := subcs_loop c tmplOriginalName (map_to_list subcs) tmpl clips in
                  match r with
                  | (tmpl, _, Some err) => ret (Some tmpl, Some err)
                  | (tmpl, clips, None) =>
                      let* r := extcs_loop c tmplOriginalName (Tpl0 rel) (map_to_list extcs) tmpl clips in
                      match r with
                      | (tmpl, _, Some err) => ret (Some tmpl, Some err)
                      | (tmpl, _, None) =>
                          let* ti := read_info (Tpl0 rel) in
                          let* _ := write_info (Tpl0 rel) {| Template := Some tmpl; Blocks := Blocks ti |} in
                          let* _ := modify (fun st => set_cache (<[cachedKey := rel]> (CachedRelation st)) st) in
                          ret (Some tmpl, None)
                      end
                  end
              | (_, err) =>
                  let err := default "" err in
                  ret ((TParse t ("Parse " +:+ tmplName +:+ " err: " +:+ err)).1, Some err)
              end
          end
      end
  end.

(** What a call of Render or Fetch does: it returns (having written
    [written], with the error it returns), or it panics. *)
Inductive Outcome : Type :=
| Returned (written : string) (err : option string)
| Panicked.

(** [Render] (the mutex and the re-entrancy flag are not modelled). *)
Definition Render (c : Ctx) (tmplName : string) (values : Data E) : M Outcome :=
  let* r := parse c tmplName in
  match r with
  | (_, Some err) => ret (Returned "" (Some err))
  | (None, None) => ret Panicked
  | (Some tmpl, None) =>
      let '(out, e) := exec E tmpl (tname tmpl) values in ret (Returned out e)
  end.

(** [execute]: a nil template panics. *)
Definition execute (tmpl : option Tmpl) (data : Data E) : Outcome :=
  match tmpl with
  | None => Panicked
  | Some t =>
      let '(out, e) := exec E t (tname t) data in
      match e with
      | None => Returned out None
      | Some err => Returned ("Parse " +:+ tname t +:+ " err: " +:+ err) None
      end
  end.

(** [Fetch]: the string is the [written] part of the outcome. *)
Definition Fetch (c : Ctx) (tmplName : string) (data : Data E) : M Outcome :=
  let* r := parse c tmplName in
  ret (execute r.1 data).

(** [ClearCache] (the content source's own cache is external). *)
Definition ClearCache : M unit := modify (set_cache ∅).

(** [deleteCachedRelation]: any cached name clears the whole cache. *)
Definition deleteCachedRelation (name : string) : M unit :=
  let* cache := gets CachedRelation in
  match cache !! name with
  | Some _ => modify (set_cache ∅)
  | None => ret tt
  end.

(** The file-change callback installed by [Init]. *)
Definition on_file_event (name typ event : string) : M unit :=
  if String.eqb event "delete" || String.eqb event "modify" || String.eqb event "rename" then
    if String.eqb typ "dir" then ret tt else deleteCachedRelation name
  else ret tt.

End Driver.

(** [hasBlock] and [hasAnyBlock] as installed by [setFunc], called with the
    heap at the time of the call: every (some) argument is in the [Blocks]
    set of the closed-over [tplInfo]. *)
Definition call_hasBlock (h : gmap nat tplInfo) (p : nat) (blocks : list string) : bool :=
  forallb (fun b => bool_decide (b ∈ Blocks (default (NewTplInfo None) (h !! p)))) blocks.

Definition call_hasAnyBlock (h : gmap nat tplInfo) (p : nat) (blocks : list string) : bool :=
  existsb (fun b => bool_decide (b ∈ Blocks (default (NewTplInfo None) (h !! p)))) blocks.

(* ===================================================================== *)
(** * A concrete environment                                              *)
(* ===================================================================== *)

(** The [html/template] parser's rejection of an action that is opened by
    the left delimiter and never closed ([unclosed action]); other
    parse errors are not modelled by this instance. *)
Fixpoint unclosed_action (fuel : nat) (s : string) : option string :=
  match fuel with
  | 0 => None
  | S f =>
      match index "{{" s with
      | None => None
      | Some i =>
          match index "}}" (sdrop (i + 2) s) with
          | None => Some "unclosed action"
          | Some j => unclosed_action f (sdrop (i + 2 + j + 2) s)
          end
      end
  end.

(** A directory of files read through [os.ReadFile], an identity name
    cleaner, and an evaluator whose templates print their own text. *)
Definition mkEnv (files : gmap string string) : Env := {|
  fs := files;
  read_err := fun p => "open " +:+ p +:+ ": no such file or directory";
  strip_body := fun b => b;
  CleanTemplateName := fun p => p;
  Data := unit;
  parse_error := fun _ s => unclosed_action (String.length s) s;
  exec := fun t name _ => (default "" (tdefs t !! name), None)
|}.

(** The state of a fresh driver. *)
Definition st0 : St := {| CachedRelation := ∅; heap := ∅; next := 0; reads := []; expanded := [];
                          calls := [] |}.

Definition ctx0 : Ctx := {| c_funcs := ∅; c_getfunc := fun _ => None |}.

(* ===================================================================== *)
(** * Concrete runs                                                       *)
(* ===================================================================== *)

(** A page [a] that includes [inc], compiled by a fresh driver. *)
Definition files_a : gmap string string :=
  <["/tpl/a.html" := Q "<{{Include 'inc'}}>"]> (<["/tpl/inc.html" := "I"]> ∅).
Definition E_a : Env := mkEnv files_a.
Definition run_a := parse E_a std0 ctx0 "a" st0.
Definition tmpl0 : Tmpl := {| tname := ""; tfuncs := ∅; tdefs := ∅ |}.
Definition tmpl_a : Tmpl := match run_a with Some ((Some t, _), _) => t | _ => tmpl0 end.
Definition st_a : St := match run_a with Some (_, st) => st | None => st0 end.
Definition ti_a : tplInfo := default (NewTplInfo None) (heap st_a !! 0).

(** [m] relates its start and end states by [P]. *)
Definition pres (P : St -> St -> Prop) {A} (m : M A) : Prop :=
  forall st a st', m st = Some (a, st') -> P st st'.

(** The trace [f] of [st'] extends that of [st]. *)
Definition grows {X} (f : St -> list X) (st st' : St) : Prop := exists l, f st' = (f st ++ l)%list.

(** Include expansion and totality. *)
(** The number of readable files not yet in the include pool. *)
Definition unpooled (E : Env) (subcs : gmap string string) : nat :=
  size (dom (fs E) ∖ dom subcs).

(** [m] never runs out of budget. *)
Definition tot {A} (m : M A) : Prop := forall st, exists a st', m st = Some (a, st').

(** The paths expanded between [st] and [st'] are distinct readable files,
    none in the pool [s0] the run started with and all in the pool [s1] it
    ended with; the pool only grows. *)
Definition ExpInv (E : Env) (s0 : gset string) (st st' : St) (s1 : gset string) : Prop :=
  exists l, expanded st' = (expanded st ++ l)%list /\ NoDup l /\
    (forall p, p ∈ l -> (p ∉ s0) /\ p ∈ s1 /\ p ∈ dom (fs E)) /\ s0 ⊆ s1.


(** A page that includes itself, and a page that includes a missing file. *)
Definition files_self : gmap string string := {["/tpl/a.html" := Q "x{{Include 'a'}}y"]}.

Definition files_missing_inc : gmap string string := {["/tpl/p.html" := Q "a{{Include 'm'}}b"]}.




Definition tdefs_of (r : option (option Tmpl * option string * St)) : option (list (string * string)) :=
  match r with Some ((Some t, _), _) => Some (map_to_list (tdefs t)) | _ => None end.


(* ===================================================================== *)
(** * Paired blocks, Extend chains and the Super marker                  *)
(* ===================================================================== *)

(** Text without an opening brace: no tag of the driver starts in it. *)
Fixpoint plain (s : string) : bool :=
  match s with
  | EmptyString => true
  | String c s' => negb (Ascii.eqb c "{"%char) && plain s'
  end.

Definition supm : string := "{{Super}}".


(** [r] matches nowhere a byte other than an opening brace starts. *)
Definition brace_headed (r : re) : Prop :=
  forall pos c u, Ascii.eqb c "{"%char = false -> match_at r pos (String c u) = None.

(** [r] matches neither at a Super marker nor at its second byte. *)
Definition sup_inert (r : re) : Prop :=
  (forall pos t, match_at r pos (supm +:+ t) = None) /\
  (forall pos t, match_at r pos ("{Super}}" +:+ t) = None).

Definition blk_open : string := Q "{{Block 'b'}}".
Definition blk_close : string := "{{/Block}}".


Definition ext_open : string := Q "{{Extend 'parent'}}".

Definition blk_text (X : string) : string := blk_open +:+ X +:+ blk_close.

Definition child_text (X : string) : string := ext_open +:+ blk_text X.


(** The keys [ParseExtend] may record for the block matches [ms] of the
    layout: a block name, or a block name with its repeat suffix. *)
Definition layout_key (ms : list submatch) (k : string) : Prop :=
  exists v, In v ms /\ (k = m1 v \/ exists i, k = m1 v +:+ "." +:+ show_uint8 i).

(** A two-level chain: the child extends ["parent"] and defines block
    ["b"]; the parent's layout is that block with an inline body. *)
Definition files_super : gmap string string :=
  <["/tpl/child.html" := child_text ("a" +:+ supm +:+ "c")]> (<["/tpl/parent.html" := blk_text "P"]> ∅).
Definition E_super : Env := mkEnv files_super.

(** A child block nested in another one, and a layout naming neither the
    nested block nor the child's last block. *)
Definition layout_orphan : string := Q "{{Block 'a'/}}{{Block 'q'}}Q{{/Block}}".
Definition files_orphan : gmap string string :=
  <["/tpl/c.html" := Q "{{Extend 'p'}}{{Block 'a'}}{{Block 'z'}}W{{/Block}}{{/Block}}{{Block 'z'}}Z{{/Block}}"]>
  (<["/tpl/p.html" := layout_orphan]> ∅).
Definition E_orphan : Env := mkEnv files_orphan.
Definition extcs_orphan : gmap string string := <["a" := Q "{{Block 'z'}}W"]> (<["z" := "Z"]> ∅).


(* ===================================================================== *)
(** * Further definitions: content processors, cache growth, patterns     *)
(* ===================================================================== *)


(** Every name cached in [st] is still cached in [st']. *)
Definition cache_grows (st st' : St) : Prop :=
  forall k, is_Some (CachedRelation st !! k) -> is_Some (CachedRelation st' !! k).

(** From [st] to [st'], the files read ([lr]) and expanded ([le]) are
    appended to the logs, every readable file read is expanded, and the
    cache only grows. *)
Definition RX (E : Env) (st st' : St) : Prop :=
  exists lr le, reads st' = (reads st ++ lr)%list /\ expanded st' = (expanded st ++ le)%list /\
    (forall p, p ∈ lr -> p ∈ dom (fs E) -> p ∈ le) /\ cache_grows st st'.

(** As [RX], but a readable file read may instead be a cache key of [st']
    (the layouts of an extend chain are cached, not expanded). *)
Definition RY (E : Env) (st st' : St) : Prop :=
  exists lr le, reads st' = (reads st ++ lr)%list /\ expanded st' = (expanded st ++ le)%list /\
    (forall p, p ∈ lr -> p ∈ dom (fs E) -> p ∈ le \/ is_Some (CachedRelation st' !! p)) /\
    cache_grows st st'.

(** Patterns that do not use [^] match the same way at every offset. *)
Fixpoint no_bol (r : re) : bool :=
  match r with
  | RBol => false
  | RCat r1 r2 => no_bol r1 && no_bol r2
  | ROpt r1 | RGroup _ r1 => no_bol r1
  | _ => true
  end.

(** Every byte of [s] satisfies [p]. *)
Fixpoint str_all (p : ascii -> bool) (s : string) : bool :=
  match s with
  | EmptyString => true
  | String c s' => p c && str_all p s'
  end.

(** A self-closing block placeholder [{{Block "n"/}}] of the default
    configuration, and the parts of [rplTagRegex] around its name. *)
Definition ph (n : string) : string := "{{Block " +:+ dq +:+ n +:+ dq +:+ "/}}".
Definition rpl_pre : re := cats [RLit "{{"; RLit "Block"; plus is_space; RLit dq].
Definition rpl_post : re := cats [RLit dq; RStar is_space true; RLit "/"; RLit "}}"].

(** The closing Strip tag of the default configuration, as a text and as
    the tail of [stripTagRegex]. *)
Definition strip_close : string := "{{/Strip}}".
Definition strip_post : re := cats [RLit "{{"; RLit "/"; RLit "Strip"; RLit "}}"].

(** A content defining block ["b"] twice, a layout with a paired block and
    a placeholder, and the child values filling it. *)
Definition content_bb : string := Q "{{Block 'b'}}1{{/Block}}{{Block 'b'}}2{{/Block}}".
Definition layout_hy : string := Q "<{{Block 'h'}}H{{/Block}}|{{Block 'x'/}}>".
Definition extcs_x : gmap string string := {["x" := "1"]}.


(* ===================================================================== *)
(** * Facts about the state monad                                         *)
(* ===================================================================== *)

Lemma bind_Some {A B} (m : M A) (f : A -> M B) st r :
  bind m f st = Some r -> exists a st1, m st = Some (a, st1) /\ f a st1 = Some r.
Proof.
  unfold bind. destruct (m st) as [[a st1]|]; [eauto|discriminate].
Qed.

Lemma bind_eq {A B} (m : M A) (f : A -> M B) st a st1 :
  m st = Some (a, st1) -> bind m f st = f a st1.
Proof. unfold bind. intros ->. reflexivity. Qed.

Ltac bind_inv H :=
  let a := fresh "a" in let st := fresh "st" in let Hm := fresh "Hm" in
  apply bind_Some in H; destruct H as (a & st & Hm & H).

Tactic Notation "bind_d" hyp(H) "as" simple_intropattern(pat) :=
  apply bind_Some in H;
  let a := fresh "a" in let st := fresh "st" in let Hm := fresh "Hm" in
  destruct H as (a & st & Hm & H); destruct a as pat.

Ltac mprim H := cbv [bind ret gets modify read_info write_info alloc] in H; injection H; clear H; intros; subst.

Lemma ParseNew_funcs E tmpl name text tmpl' t :
  ParseNew E tmpl name text = inl (tmpl', t) -> tfuncs tmpl' = tfuncs tmpl /\ tname tmpl' = tname tmpl.
Proof. unfold ParseNew. destruct (parse_error _ _ _); intros H; inversion H; auto. Qed.

Lemma ParseDiag_funcs E tmpl name text : tfuncs (ParseDiag E tmpl name text) = tfuncs tmpl.
Proof.
  unfold ParseDiag. destruct (ParseNew E tmpl name text) as [[a b]|] eqn:Hp; [|reflexivity].
  apply ParseNew_funcs in Hp. tauto.
Qed.

Lemma subcs_loop_funcs E self c o items : forall tmpl clips st tmpl' clips' e st',
  subcs_loop E self c o items tmpl clips st = Some ((tmpl', clips', e), st') -> tfuncs tmpl' = tfuncs tmpl.
Proof.
  induction items as [|[name subc] items IH]; intros tmpl clips st tmpl' clips' e st' H; simpl in H.
  - unfold ret in H. congruence.
  - bind_inv H. bind_inv H. destruct a0 as [t1|].
    + apply IH in H. exact H.
    + bind_inv H. destruct (String.eqb name (tname tmpl)).
      * unfold ret in Hm1. injection Hm1 as <- <-. bind_inv H. apply IH in H. exact H.
      * bind_inv Hm1. destruct (ParseNew E tmpl name _) as [[tm t]|err] eqn:Hp.
        -- unfold ret in Hm1. injection Hm1 as <- <-. bind_inv H. apply IH in H.
           apply ParseNew_funcs in Hp. destruct Hp; congruence.
        -- unfold ret in Hm1. injection Hm1 as <- <-. unfold ret in H. injection H as <- <- <- <-.
           apply ParseDiag_funcs.
Qed.

Lemma extcs_loop_funcs E self c o relp items : forall tmpl clips st tmpl' clips' e st',
  extcs_loop E self c o relp items tmpl clips st = Some ((tmpl', clips', e), st') -> tfuncs tmpl' = tfuncs tmpl.
Proof.
  induction items as [|[name extc] items IH]; intros tmpl clips st tmpl' clips' e st' H; simpl in H.
  - unfold ret in H. congruence.
  - bind_inv H. destruct (String.eqb name (tname tmpl)).
    + unfold ret in Hm. injection Hm as <- <-. bind_inv H. bind_inv H. apply IH in H. exact H.
    + bind_inv Hm. destruct (ParseNew E tmpl name _) as [[tm t]|err] eqn:Hp.
      * unfold ret in Hm. injection Hm as <- <-. bind_inv H. bind_inv H. apply IH in H.
        apply ParseNew_funcs in Hp. destruct Hp; congruence.
      * unfold ret in Hm. injection Hm as <- <-. unfold ret in H. injection H as <- <- <- <-.
        apply ParseDiag_funcs.
Qed.

Lemma TParse_funcs E t x t' : (TParse E t x).1 = Some t' -> tfuncs t' = tfuncs t.
Proof. unfold TParse. destruct (parse_error _ _ _); simpl; intros H; inversion H; reflexivity. Qed.

Lemma TParse_funcs' E t x t' e : TParse E t x = (Some t', e) -> tfuncs t' = tfuncs t.
Proof. unfold TParse. destruct (parse_error _ _ _); simpl; intros H; inversion H; reflexivity. Qed.

Lemma setFunc_lookup p fm t :
  tfuncs (Funcs t (setFunc p fm)) !! "hasBlock" = Some (FHasBlock p) /\
  tfuncs (Funcs t (setFunc p fm)) !! "hasAnyBlock" = Some (FHasAnyBlock p).
Proof.
  unfold Funcs, setFunc; simpl. split; apply lookup_union_Some_l.
  - rewrite lookup_insert_ne by discriminate. apply lookup_insert_eq.
  - apply lookup_insert_eq.
Qed.

Ltac diag_case :=
  match goal with Hx : (TParse _ _ _).1 = Some _ |- _ => apply TParse_funcs in Hx; rewrite Hx end;
  eexists; split; [apply (proj1 (setFunc_lookup _ _ _))|
                   split; [apply (proj2 (setFunc_lookup _ _ _))|intros Hn; discriminate Hn]].

Ltac funcs_finish :=
  repeat match goal with
  | Hx : subcs_loop _ _ _ _ _ _ _ _ = Some _ |- _ => apply subcs_loop_funcs in Hx; rewrite Hx
  | Hx : extcs_loop _ _ _ _ _ _ _ _ _ = Some _ |- _ => apply extcs_loop_funcs in Hx; rewrite Hx
  | Hx : TParse _ _ _ = (Some _, _) |- _ => apply TParse_funcs' in Hx; rewrite Hx
  end;
  eexists; split; [apply (proj1 (setFunc_lookup _ _ _))|
                   split; [apply (proj2 (setFunc_lookup _ _ _))|try (intros Hn; discriminate Hn)]].

Ltac compile_tail :=
  lazymatch goal with H : _ = Some ((Some _, _), _) |- _ =>
    bind_d H as [content|e];
    [ bind_d H as [[[content0 subcs] extcs]|e];
      [ bind_d H as [content1 subcs1];
        bind_d H as [content2 clips];
        lazymatch type of H with
        | context [TParse ?E0 ?t0 ?x] => destruct (TParse E0 t0 x) as [[tm|] [e|]] eqn:HT
        end;
        [ mprim H; diag_case
        | bind_d H as [[tm1 clips1] [e|]];
          [ mprim H; funcs_finish
          | bind_d H as [[tm2 clips2] [e|]];
            [ mprim H; funcs_finish
            | bind_inv H; bind_d H as []; bind_d H as []; mprim H;
              repeat match goal with Hx : _ = Some (_, _) |- _ => progress mprim Hx end;
              funcs_finish;
              intros _; eexists _, _; cbn; rewrite !lookup_insert_eq; eauto ] ]
        | mprim H; diag_case
        | mprim H; diag_case ]
      | mprim H; diag_case ]
    | mprim H; diag_case ]
  end.

Lemma parse_funcs E self c name st tmpl err st' :
  parse E self c name st = Some ((Some tmpl, err), st') ->
  exists p, tfuncs tmpl !! "hasBlock" = Some (FHasBlock p) /\
            tfuncs tmpl !! "hasAnyBlock" = Some (FHasAnyBlock p) /\
            (err = None -> exists rel ti,
               CachedRelation st' !! TmplPath self c (name +:+ Ext self) = Some rel /\
               Tpl0 rel = p /\ heap st' !! p = Some ti /\ Template ti = Some tmpl).
Proof.
  intros H. unfold parse in H.
  bind_inv H. bind_inv H. unfold gets in Hm. injection Hm as <- <-.
  destruct (CachedRelation st !! _) as [rel|] eqn:Hc; [destruct a0 as [t|]|].
  - bind_inv H. bind_inv H. unfold ret in H. injection H as <- <- <-.
    exists (Tpl0 rel). split; [|split]; try apply setFunc_lookup.
    intros _. mprim Hm0. mprim Hm. mprim Hm1. exists rel. eexists. cbn. rewrite Hc.
    split; [reflexivity|split; [reflexivity|]]. rewrite lookup_insert_eq. eauto.
  - bind_inv H. compile_tail.
  - bind_inv H. compile_tail.
Qed.

Lemma call_hasBlock_spec h p bs :
  call_hasBlock h p bs = true <-> Forall (fun b => b ∈ Blocks (default (NewTplInfo None) (h !! p))) bs.
Proof.
  unfold call_hasBlock. rewrite forallb_forall, Forall_forall.
  split; intros H b Hb; specialize (H b); rewrite <- list_elem_of_In in *.
  - specialize (H Hb). apply bool_decide_eq_true in H. exact H.
  - apply bool_decide_eq_true. auto.
Qed.

Lemma call_hasAnyBlock_spec h p bs :
  call_hasAnyBlock h p bs = true <-> Exists (fun b => b ∈ Blocks (default (NewTplInfo None) (h !! p))) bs.
Proof.
  unfold call_hasAnyBlock. rewrite existsb_exists, Exists_exists.
  split; intros (b & Hb & H); exists b; rewrite <- list_elem_of_In in *; split; auto.
  - apply bool_decide_eq_true in H. exact H.
  - apply bool_decide_eq_true. exact H.
Qed.

Lemma parse_hit E self c name st rel ti t :
  CachedRelation st !! TmplPath self c (name +:+ Ext self) = Some rel ->
  heap st !! Tpl0 rel = Some ti -> Template ti = Some t ->
  let tmpl := Funcs t (setFunc (Tpl0 rel) (c_funcs c ∪ default ∅ (getFuncs self))) in
  parse E self c name st =
    Some ((Some tmpl, None),
          set_heap (<[Tpl0 rel := {| Template := Some tmpl; Blocks := Blocks ti |}]> (heap st)) st).
Proof.
  intros Hc Hh Ht tmpl.
  cbv beta iota zeta delta [parse bind gets ret read_info write_info modify].
  rewrite Hc, Hh. cbn. rewrite Ht. cbn. rewrite Hh. reflexivity.
Qed.

(* ===================================================================== *)
(** * Preservation along the pipeline                                    *)
(* ===================================================================== *)

Section Pres.
Variable P : St -> St -> Prop.
Hypothesis P_refl : forall st, P st st.
Hypothesis P_trans : forall st1 st2 st3, P st1 st2 -> P st2 st3 -> P st1 st3.

Lemma pres_ret {A} (a : A) : pres P (ret a).
Proof. intros st b st' H. injection H as _ <-. apply P_refl. Qed.

Lemma pres_stuck {A} : pres P (@stuck A).
Proof. intros st b st' H. discriminate H. Qed.

Lemma pres_gets {A} (f : St -> A) : pres P (gets f).
Proof. intros st b st' H. injection H as _ <-. apply P_refl. Qed.

Lemma pres_bind {A B} (m : M A) (f : A -> M B) :
  pres P m -> (forall a, pres P (f a)) -> pres P (bind m f).
Proof.
  intros Hm Hf st b st' H. apply bind_Some in H. destruct H as (a & st1 & H1 & H2).
  eapply P_trans; [eapply Hm; exact H1|eapply Hf; exact H2].
Qed.

Lemma pres_modify (f : St -> St) : (forall st, P st (f st)) -> pres P (modify f).
Proof. intros Hf st b st' H. injection H as _ <-. apply Hf. Qed.

End Pres.

Section PresFuns.
Variable P : St -> St -> Prop.
Hypothesis P_refl : forall st, P st st.
Hypothesis P_trans : forall st1 st2 st3, P st1 st2 -> P st2 st3 -> P st1 st3.
Hypothesis HP_read : forall p st, P st (log_read p st).
Hypothesis HP_exp : forall p st, P st (log_expanded p st).
Hypothesis HP_call : forall x st, P st (log_call x st).
Hypothesis HP_cache : forall k rel st, P st (set_cache (<[k := rel]> (CachedRelation st)) st).
Hypothesis HP_heap : forall p ti st, P st (set_heap (<[p := ti]> (heap st)) st).
Hypothesis HP_alloc : forall ti st a st', alloc ti st = Some (a, st') -> P st st'.
Variable E : Env.
Variable self : Standard.

Ltac pres_step :=
  match goal with
  | |- pres _ (bind _ _) => apply (pres_bind P P_trans); [|intros ?]
  | |- pres _ (ret _) => apply (pres_ret P P_refl)
  | |- pres _ stuck => apply pres_stuck
  | |- pres _ (gets _) => apply (pres_gets P P_refl)
  | |- pres _ (read_info _) => apply (pres_gets P P_refl)
  | |- pres _ (write_info _ _) => apply pres_modify; intros; apply HP_heap
  | |- pres _ (modify (log_read _)) => apply pres_modify; apply HP_read
  | |- pres _ (modify (log_expanded _)) => apply pres_modify; apply HP_exp
  | |- pres _ (modify (log_call _)) => apply pres_modify; apply HP_call
  | |- pres _ (modify (fun st => set_cache _ st)) => apply pres_modify; intros; apply HP_cache
  | |- pres _ (alloc _) => intros ? ? ?; apply HP_alloc
  | |- pres _ (match ?x with _ => _ end) => destruct x
  end.

Ltac pres_solve := repeat (pres_step || (progress cbv beta iota zeta) || eauto).

Lemma pres_RawContent p : pres P (RawContent E self p).
Proof. unfold RawContent. pres_solve. Qed.

Lemma pres_CST_loop rec c : (forall c s sc, pres P (rec c s sc)) ->
  forall ms content subcs, pres P (CST_loop E self rec c ms content subcs).
Proof.
  intros Hrec ms. induction ms as [|v ms IH]; intros content subcs; simpl; [pres_solve|].
  destruct (subcs !! _); [apply IH|].
  pres_step; [apply pres_RawContent|]. pres_solve.
Qed.

Lemma pres_CST fuel : forall c content subcs, pres P (ContainsSubTpl E self fuel c content subcs).
Proof.
  induction fuel as [|fuel IH]; intros c content subcs; simpl; [apply pres_stuck|].
  apply pres_CST_loop. exact IH.
Qed.

Lemma pres_CFR_loop c o ms : forall content clips, pres P (CFR_loop c o ms content clips).
Proof.
  induction ms as [|v ms IH]; intros content clips; simpl; [pres_solve|].
  pres_step; [|apply IH]. pres_solve.
Qed.

Lemma pres_CFR c o content clips : pres P (ContainsFunctionResult self c o content clips).
Proof. apply pres_CFR_loop. Qed.

Lemma pres_ParseBlock_loop fuel c ms : forall subcs extcs, pres P (ParseBlock_loop E self fuel c ms subcs extcs).
Proof.
  induction ms as [|v ms IH]; intros subcs extcs; simpl; [pres_solve|].
  pres_step; [apply pres_CST|apply IH].
Qed.

Lemma pres_PE_loop fuel c hp po ms : forall s, pres P (PE_loop E self fuel c hp po ms s).
Proof.
  induction ms as [|v ms IH]; intros s; simpl; [pres_solve|].
  destruct (pe_extcs s !! m1 v); [|apply IH].
  destruct (pe_rec s !! m1 v); cbv beta iota zeta;
  (pres_step; [|repeat (pres_step || (progress cbv beta iota zeta)); apply IH]);
  repeat (pres_step || apply pres_CST || (progress cbv beta iota zeta)).
Qed.

Lemma pres_ParseExtend fuel c content extcs po subcs : pres P (ParseExtend E self fuel c content extcs po subcs).
Proof. unfold ParseExtend. cbv zeta. pres_step; [apply pres_PE_loop|pres_solve]. Qed.

Lemma pres_register_file key : pres P (register_file key).
Proof. unfold register_file. pres_solve. Qed.

Lemma pres_extend_loop c i : forall content m subcs extcs, pres P (extend_loop E self c i content m subcs extcs).
Proof.
  induction i as [|i IH]; intros content m subcs extcs; simpl; [pres_solve|].
  destruct m as [|v m]; [pres_solve|].
  repeat (pres_step || apply pres_RawContent || (unfold ParseBlock; apply pres_ParseBlock_loop) ||
          apply pres_ParseExtend || apply pres_register_file || apply IH || (progress cbv beta iota zeta)).
Qed.

Ltac pres_auto IH :=
  repeat (pres_step || apply pres_RawContent || apply pres_CFR || apply pres_CST ||
          apply pres_extend_loop || apply IH || (progress cbv beta iota zeta)).

Lemma pres_subcs_loop c o items : forall tmpl clips, pres P (subcs_loop E self c o items tmpl clips).
Proof.
  induction items as [|[name subc] items IH]; intros tmpl clips; simpl; [pres_solve|].
  pres_auto IH.
Qed.

Lemma pres_extcs_loop c o relp items : forall tmpl clips, pres P (extcs_loop E self c o relp items tmpl clips).
Proof.
  induction items as [|[name extc] items IH]; intros tmpl clips; simpl; [pres_solve|].
  pres_auto IH.
Qed.

Lemma pres_parse c name : pres P (parse E self c name).
Proof.
  unfold parse.
  repeat (pres_step || apply pres_RawContent || apply pres_CFR || apply pres_CST ||
          apply pres_extend_loop || apply pres_subcs_loop || apply pres_extcs_loop ||
          (progress cbv beta iota zeta)).
Qed.

Lemma pres_Render c name d : pres P (Render E self c name d).
Proof. unfold Render. pres_step; [apply pres_parse|]. pres_solve. Qed.

Lemma pres_Fetch c name d : pres P (Fetch E self c name d).
Proof. unfold Fetch. pres_step; [apply pres_parse|]. pres_solve. Qed.

Lemma parse_miss_after_read c name st r st'' :
  CachedRelation st !! TmplPath self c (name +:+ Ext self) = None ->
  parse E self c name st = Some (r, st'') ->
  exists st1, reads st1 = reads st /\ P (log_read (TmplPath self c (name +:+ Ext self)) st1) st''.
Proof.
  intros Hc H. unfold parse in H.
  bind_inv H. mprim Hm. bind_inv H. rewrite Hc in Hm. mprim Hm. rewrite Hc in H.
  bind_inv H. mprim Hm. bind_inv H.
  unfold RawContent in Hm. bind_inv Hm. mprim Hm0.
  match type of H with ?m _ = _ =>
    assert (Hp : pres P m) by
      repeat (pres_step || apply pres_RawContent || apply pres_CFR || apply pres_CST ||
              apply pres_extend_loop || apply pres_subcs_loop || apply pres_extcs_loop ||
              (progress cbv beta iota zeta)) end.
  eexists. split; [|destruct (fs E !! _); cbv [ret] in Hm; injection Hm as <- <-; eapply Hp; exact H].
  reflexivity.
Qed.
End PresFuns.

Lemma parse_load_error E self c name st :
  let key := TmplPath self c (name +:+ Ext self) in
  CachedRelation st !! key = None -> fs E !! key = None ->
  exists p st',
    parse E self c name st =
      Some (((TParse E (Funcs {| tname := CleanTemplateName E key; tfuncs := ∅; tdefs := ∅ |}
                                 (setFunc p (c_funcs c ∪ default ∅ (getFuncs self))))
                     (read_err E key)).1, Some (read_err E key)), st') /\
    CachedRelation st' = CachedRelation st /\ reads st' = (reads st ++ [key])%list /\
    expanded st' = expanded st /\ calls st' = calls st.
Proof.
  intros key Hc Hf.
  cbv beta iota zeta delta [parse bind gets ret read_info write_info modify alloc RawContent].
  fold key. rewrite Hc. cbn. fold key. rewrite Hf.
  eexists _, _. split; [reflexivity|]. cbn. repeat split.
Qed.

Lemma grows_refl {X} (f : St -> list X) st : grows f st st.
Proof. exists []. rewrite app_nil_r. reflexivity. Qed.

Lemma grows_trans {X} (f : St -> list X) st1 st2 st3 : grows f st1 st2 -> grows f st2 st3 -> grows f st1 st3.
Proof. intros [l1 H1] [l2 H2]. exists (l1 ++ l2)%list. rewrite H2, H1, app_assoc. reflexivity. Qed.

Ltac grows_prim :=
  intros; first
  [ match goal with H : alloc _ _ = Some _ |- _ => injection H as <- <- end
  | idtac ];
  first [ exists []; simpl; rewrite app_nil_r; reflexivity | eexists; reflexivity ].

Lemma reads_parse_miss E self c name st r st' :
  CachedRelation st !! TmplPath self c (name +:+ Ext self) = None ->
  parse E self c name st = Some (r, st') ->
  exists l, reads st' = (reads st ++ TmplPath self c (name +:+ Ext self) :: l)%list.
Proof.
  intros Hc H.
  destruct (parse_miss_after_read (grows reads) (grows_refl reads) (grows_trans reads)
              ltac:(grows_prim) ltac:(grows_prim) ltac:(grows_prim) ltac:(grows_prim)
              ltac:(grows_prim) ltac:(grows_prim) E self c name st r st' Hc H) as (st1 & H1 & l & Hl).
  exists l. rewrite Hl. simpl. rewrite H1, <- app_assoc. reflexivity.
Qed.

(* ===================================================================== *)
(** * Include expansion: totality, one expansion per path, output shape *)
(* ===================================================================== *)

Section Include.
Variable E : Env.
Variable self : Standard.

Lemma unpooled_insert_lt t v subcs :
  subcs !! t = None -> is_Some (fs E !! t) -> unpooled E (<[t := v]> subcs) < unpooled E subcs.
Proof.
  intros Hn Hs. unfold unpooled. apply subset_size. rewrite dom_insert_L.
  apply not_elem_of_dom in Hn. apply elem_of_dom in Hs. set_solver.
Qed.

Lemma unpooled_mono s1 s2 : dom s1 ⊆ dom s2 -> unpooled E s2 <= unpooled E s1.
Proof. intros H. unfold unpooled. apply subseteq_size. set_solver. Qed.

Lemma RawContent_eq p st :
  RawContent E self p st =
    Some (match fs E !! p with Some b => inl (preprocess E self b) | None => inr (read_err E p) end,
          log_read p st).
Proof. unfold RawContent, bind, modify. destruct (fs E !! p); reflexivity. Qed.

Lemma CST_loop_total rec c f :
  (forall s sc st, unpooled E sc < f ->
     exists r st', rec c s sc st = Some (r, st') /\ dom sc ⊆ dom r.2) ->
  forall ms content subcs st, unpooled E subcs <= f ->
  exists r st', CST_loop E self rec c ms content subcs st = Some (r, st') /\ dom subcs ⊆ dom r.2.
Proof.
  intros Hrec ms. induction ms as [|v ms IH]; intros content subcs st Hu; simpl.
  - eexists _, _. split; [reflexivity|]. simpl. set_solver.
  - destruct (subcs !! _) as [x|] eqn:Hs; [apply IH; exact Hu|].
    unfold bind at 1. rewrite RawContent_eq.
    destruct (fs E !! _) as [b|] eqn:Hf.
    + unfold bind at 1, modify.
      destruct (Hrec (preprocess E self b) (<[TmplPath self c (m1 v +:+ Ext self) := ""]> subcs)
                  (log_expanded (TmplPath self c (m1 v +:+ Ext self)) (log_read (TmplPath self c (m1 v +:+ Ext self)) st)))
        as (r & st1 & Hr & Hd).
      { eapply Nat.lt_le_trans; [apply unpooled_insert_lt; [exact Hs|rewrite Hf; eauto]|exact Hu]. }
      unfold bind at 1. rewrite Hr.
      rewrite dom_insert_L in Hd.
      destruct (IH (replace_all content (m0 v) (include_ref E self (TmplPath self c (m1 v +:+ Ext self)) (m2 v)))
                   (<[TmplPath self c (m1 v +:+ Ext self) := r.1]> r.2) st1) as (r' & st' & Hr' & Hd').
      { etransitivity; [|exact Hu]. apply unpooled_mono. rewrite dom_insert_L. set_solver. }
      exists r', st'. split; [exact Hr'|]. rewrite dom_insert_L in Hd'. set_solver.
    + eexists _, _. split; [reflexivity|]. simpl. set_solver.
Qed.

Lemma CST_total fuel : forall c content subcs st, unpooled E subcs < fuel ->
  exists r st', ContainsSubTpl E self fuel c content subcs st = Some (r, st') /\ dom subcs ⊆ dom r.2.
Proof.
  induction fuel as [|f IH]; intros c content subcs st Hu; [lia|]. simpl.
  apply (CST_loop_total _ c f); [|lia]. intros s sc st' Hl. apply IH. exact Hl.
Qed.

Lemma CST_fuel0_total c content subcs st :
  exists r st', ContainsSubTpl E self (fuel0 E) c content subcs st = Some (r, st').
Proof.
  destruct (CST_total (fuel0 E) c content subcs st) as (r & st' & H & _); [|eauto].
  unfold unpooled, fuel0. rewrite <- Nat.le_succ_l. apply le_n_S.
  rewrite <- (size_dom (fs E)). apply subseteq_size. set_solver.
Qed.

End Include.

Lemma tot_ret {A} (a : A) : tot (ret a).
Proof. intros st. eauto. Qed.

Lemma tot_bind {A B} (m : M A) (f : A -> M B) : tot m -> (forall a, tot (f a)) -> tot (bind m f).
Proof.
  intros Hm Hf st. destruct (Hm st) as (a & st1 & H1). destruct (Hf a st1) as (b & st2 & H2).
  exists b, st2. unfold bind. rewrite H1. exact H2.
Qed.

Section Total.
Variable E : Env.
Variable self : Standard.

Ltac tot_step :=
  match goal with
  | |- tot (bind _ _) => apply tot_bind; [|intros ?]
  | |- tot (ret _) => apply tot_ret
  | |- tot (gets _) => intros ?; eexists _, _; reflexivity
  | |- tot (read_info _) => intros ?; eexists _, _; reflexivity
  | |- tot (write_info _ _) => intros ?; eexists _, _; reflexivity
  | |- tot (modify _) => intros ?; eexists _, _; reflexivity
  | |- tot (alloc _) => intros ?; eexists _, _; reflexivity
  | |- tot (RawContent _ _ _) => intros ?; rewrite RawContent_eq; eexists _, _; reflexivity
  | |- tot (ContainsSubTpl _ _ (fuel0 _) _ _ _) => intros ?; apply CST_fuel0_total
  | |- tot (match ?x with _ => _ end) => destruct x
  end.

Ltac tot_solve IH := repeat (tot_step || apply IH || (progress cbv beta iota zeta)).

Lemma tot_CFR_loop c o ms : forall content clips, tot (CFR_loop c o ms content clips).
Proof. induction ms as [|v ms IH]; intros content clips; simpl; tot_solve IH. Qed.

Lemma tot_CFR c o content clips : tot (ContainsFunctionResult self c o content clips).
Proof. apply tot_CFR_loop. Qed.

Lemma tot_ParseBlock_loop c ms : forall subcs extcs, tot (ParseBlock_loop E self (fuel0 E) c ms subcs extcs).
Proof. induction ms as [|v ms IH]; intros subcs extcs; cbn [ParseBlock_loop]; tot_solve IH. Qed.

Lemma tot_PE_loop c hp po ms : forall s, tot (PE_loop E self (fuel0 E) c hp po ms s).
Proof.
  induction ms as [|v ms IH]; intros s; cbn [PE_loop]; [tot_solve IH|].
  destruct (pe_extcs s !! m1 v); [|apply IH].
  destruct (pe_rec s !! m1 v); tot_solve IH.
Qed.

Lemma tot_ParseExtend c content extcs po subcs : tot (ParseExtend E self (fuel0 E) c content extcs po subcs).
Proof. unfold ParseExtend. cbv zeta. apply tot_bind; [apply tot_PE_loop|intros; apply tot_ret]. Qed.

Lemma tot_register_file key : tot (register_file key).
Proof. unfold register_file. tot_solve (@tot_ret unit tt). Qed.

Lemma tot_extend_loop c i : forall content m subcs extcs, tot (extend_loop E self c i content m subcs extcs).
Proof.
  induction i as [|i IH]; intros content m subcs extcs; cbn [extend_loop]; [tot_solve IH|].
  destruct m as [|v m]; [tot_solve IH|].
  repeat (tot_step || (unfold ParseBlock; apply tot_ParseBlock_loop) || apply tot_ParseExtend ||
          apply tot_register_file || apply IH || (progress cbv beta iota zeta)).
Qed.

Lemma tot_subcs_loop c o items : forall tmpl clips, tot (subcs_loop E self c o items tmpl clips).
Proof.
  induction items as [|[name subc] items IH]; intros tmpl clips; simpl; [tot_solve IH|].
  repeat (tot_step || apply tot_CFR || apply IH || (progress cbv beta iota zeta)).
Qed.

Lemma tot_extcs_loop c o relp items : forall tmpl clips, tot (extcs_loop E self c o relp items tmpl clips).
Proof.
  induction items as [|[name extc] items IH]; intros tmpl clips; simpl; [tot_solve IH|].
  repeat (tot_step || apply tot_CFR || apply IH || (progress cbv beta iota zeta)).
Qed.

Lemma tot_parse c name : tot (parse E self c name).
Proof.
  unfold parse.
  repeat (tot_step || apply tot_CFR || apply tot_extend_loop || apply tot_subcs_loop ||
          apply tot_extcs_loop || (progress cbv beta iota zeta)).
Qed.

End Total.


(** Preservation of a relation along a composite computation; [side]
    discharges the facts about the primitives. *)
Ltac pres_tac side :=
  repeat (match goal with
  | |- pres _ (bind _ _) => apply pres_bind; [side| |intros ?]
  | |- pres _ (ret _) => apply pres_ret; side
  | |- pres _ (gets _) => apply pres_gets; side
  | |- pres _ (read_info _) => apply pres_gets; side
  | |- pres _ (write_info _ _) => apply pres_modify; side
  | |- pres _ (modify _) => apply pres_modify; side
  | |- pres _ (alloc _) => intros ? ? ?; side
  | |- pres _ (RawContent _ _ _) => apply pres_RawContent; side
  | |- pres _ (ContainsFunctionResult _ _ _ _ _) => apply pres_CFR; side
  | |- pres _ (subcs_loop _ _ _ _ _ _ _) => apply pres_subcs_loop; side
  | |- pres _ (extcs_loop _ _ _ _ _ _ _ _) => apply pres_extcs_loop; side
  | |- pres _ (match ?x with _ => _ end) => destruct x
  end || (progress cbv beta iota zeta)).

Section Expansion.
Variable E : Env.
Variable self : Standard.

Lemma ExpInv_same s0 st st' s1 : expanded st' = expanded st -> s0 ⊆ s1 -> ExpInv E s0 st st' s1.
Proof.
  intros H Hs. exists []. rewrite app_nil_r. split; [exact H|]. split; [constructor|].
  split; [intros p Hp; apply elem_of_nil in Hp; contradiction|exact Hs].
Qed.

Lemma ExpInv_trans s0 s1 s2 st1 st2 st3 :
  ExpInv E s0 st1 st2 s1 -> ExpInv E s1 st2 st3 s2 -> ExpInv E s0 st1 st3 s2.
Proof.
  intros (l1 & H1 & N1 & P1 & S1) (l2 & H2 & N2 & P2 & S2).
  exists (l1 ++ l2)%list. split; [rewrite H2, H1, app_assoc; reflexivity|].
  split; [|split; [|set_solver]].
  - apply NoDup_app. split; [exact N1|]. split; [|exact N2].
    intros p Hp1 Hp2. apply P1 in Hp1. apply P2 in Hp2. tauto.
  - intros p Hp. apply elem_of_app in Hp. destruct Hp as [Hp|Hp].
    + apply P1 in Hp. set_solver.
    + apply P2 in Hp. set_solver.
Qed.

Lemma ExpInv_expand t s0 st :
  t ∉ s0 -> t ∈ dom (fs E) ->
  ExpInv E s0 st (log_expanded t (log_read t st)) ({[t]} ∪ s0).
Proof.
  intros Ht Hf. exists [t]. split; [reflexivity|]. split; [apply NoDup_singleton|].
  split; [|set_solver]. intros p Hp. apply list_elem_of_singleton in Hp. subst. set_solver.
Qed.

Lemma CST_loop_once rec c :
  (forall s sc st r st', rec c s sc st = Some (r, st') -> ExpInv E (dom sc) st st' (dom r.2)) ->
  forall ms content subcs st r st',
    CST_loop E self rec c ms content subcs st = Some (r, st') -> ExpInv E (dom subcs) st st' (dom r.2).
Proof.
  intros Hrec ms. induction ms as [|v ms IH]; intros content subcs st r st' H; cbn [CST_loop] in H.
  - injection H as <- <-. apply ExpInv_same; [reflexivity|set_solver].
  - destruct (subcs !! _) as [x|] eqn:Hs; [eapply IH; exact H|].
    unfold bind at 1 in H. rewrite RawContent_eq in H.
    destruct (fs E !! _) as [b|] eqn:Hf.
    + unfold bind at 1, modify in H. bind_inv H.
      apply Hrec in Hm. rewrite dom_insert_L in Hm. apply IH in H. rewrite dom_insert_L in H.
      eapply ExpInv_trans; [apply ExpInv_expand|eapply ExpInv_trans; [exact Hm|]].
      * apply not_elem_of_dom. exact Hs.
      * apply elem_of_dom. rewrite Hf. eauto.
      * destruct Hm as (? & ? & ? & ? & Hsub).
        eapply ExpInv_trans; [apply ExpInv_same; [reflexivity|]|exact H]. set_solver.
    + injection H as <- <-. apply ExpInv_same; [reflexivity|set_solver].
Qed.

Lemma CST_once fuel : forall c content subcs st r st',
  ContainsSubTpl E self fuel c content subcs st = Some (r, st') -> ExpInv E (dom subcs) st st' (dom r.2).
Proof.
  induction fuel as [|f IH]; intros c content subcs st r st' H; [discriminate H|].
  cbn [ContainsSubTpl] in H. eapply CST_loop_once; [|exact H]. intros. eapply IH. eassumption.
Qed.


Ltac same_exp :=
  intros; first
  [ reflexivity
  | match goal with Hx : alloc _ _ = Some _ |- _ => injection Hx as <- <-; reflexivity end
  | congruence ].

Lemma ParseBlock_loop_once fuel c ms : forall subcs extcs st r st',
  ParseBlock_loop E self fuel c ms subcs extcs st = Some (r, st') -> ExpInv E (dom subcs) st st' (dom r.1).
Proof.
  induction ms as [|v ms IH]; intros subcs extcs st r st' H; cbn [ParseBlock_loop] in H.
  - injection H as <- <-. apply ExpInv_same; [reflexivity|set_solver].
  - bind_inv H. apply CST_once in Hm. apply IH in H. eapply ExpInv_trans; eassumption.
Qed.

Lemma PE_loop_once fuel c hp po ms : forall s st s' st',
  PE_loop E self fuel c hp po ms s st = Some (s', st') -> ExpInv E (dom (pe_subcs s)) st st' (dom (pe_subcs s')).
Proof.
  induction ms as [|v ms IH]; intros s st s' st' H; cbn [PE_loop] in H.
  - injection H as <- <-. apply ExpInv_same; [reflexivity|set_solver].
  - destruct (pe_extcs s !! m1 v) as [val|]; [|apply IH in H; exact H].
    destruct (pe_rec s !! m1 v); cbv beta iota zeta in H; bind_inv H;
    (lazymatch type of Hm with _ = Some (?ax, ?sty) =>
       assert (Hr : ExpInv E (dom (pe_subcs s)) st sty (dom ax.2)) end;
    [ clear H;
      repeat match type of Hm with
           | (match ?x with _ => _ end) _ = _ => destruct x
           | bind _ _ _ = _ => bind_inv Hm
           end;
      repeat match goal with
           | Hx : ContainsSubTpl _ _ _ _ _ _ _ = Some _ |- _ => apply CST_once in Hx
           | Hx : ret _ _ = Some _ |- _ => cbv [ret] in Hx; injection Hx as <- <-
           end;
      first [ apply ExpInv_same; [reflexivity|set_solver] | simpl; assumption ]
    | lazymatch type of Hm with _ = Some (?ax, _) => destruct ax as [[[val' extcs'] sup'] subcs'] end;
      cbv beta iota zeta in H; destruct (negb _) in H; apply IH in H; simpl in H, Hr; eapply ExpInv_trans; eassumption ]).
Qed.

Ltac exp_frame lem H :=
  let Hx := fresh "Hx" in
  pose proof H as Hx;
  eapply (lem (fun a b => expanded b = expanded a)) in Hx; [|same_exp ..].

Lemma ParseExtend_once fuel c content extcs po subcs st r st' :
  ParseExtend E self fuel c content extcs po subcs st = Some (r, st') ->
  ExpInv E (dom subcs) st st' (dom r.2).
Proof.
  unfold ParseExtend. intros H. bind_inv H. apply PE_loop_once in Hm.
  cbv [ret] in H. injection H as <- <-. exact Hm.
Qed.

Lemma extend_loop_once c i : forall content m subcs extcs st r st',
  extend_loop E self c i content m subcs extcs st = Some (r, st') ->
  match r with
  | inl (_, subcs', _) => ExpInv E (dom subcs) st st' (dom subcs')
  | inr _ => exists s1, ExpInv E (dom subcs) st st' s1
  end.
Proof.
  induction i as [|i IH]; intros content m subcs extcs st r st' H; cbn [extend_loop] in H.
  - injection H as <- <-. apply ExpInv_same; [reflexivity|set_solver].
  - destruct m as [|v m]; [injection H as <- <-; apply ExpInv_same; [reflexivity|set_solver]|].
    bind_inv H. unfold ParseBlock in Hm. apply ParseBlock_loop_once in Hm.
    unfold bind at 1 in H. rewrite RawContent_eq in H.
    destruct (fs E !! _) as [b|].
    + bind_inv H. apply ParseExtend_once in Hm0.
      destruct a0 as [[[content' m'] extcs'] subcs']. cbv beta iota in H.
      bind_inv H. exp_frame pres_register_file Hm1.
      apply IH in H. destruct r as [[[x s'] y]|e].
      * eapply ExpInv_trans; [exact Hm|]. eapply ExpInv_trans; [|eapply ExpInv_trans; [|exact H]].
        -- exact (ExpInv_trans _ _ _ _ _ _ (ExpInv_same _ _ _ _ eq_refl (reflexivity _)) Hm0).
        -- apply ExpInv_same; [simpl in *; congruence|reflexivity].
      * destruct H as [s1 H]. exists s1.
        eapply ExpInv_trans; [exact Hm|]. eapply ExpInv_trans; [exact Hm0|].
        eapply ExpInv_trans; [|exact H]. apply ExpInv_same; [simpl in *; congruence|reflexivity].
    + cbv [ret] in H. injection H as <- <-. exists (dom a.1).
      eapply ExpInv_trans; [exact Hm|]. apply ExpInv_same; [reflexivity|reflexivity].
Qed.

Lemma parse_once c name st r st' :
  parse E self c name st = Some (r, st') ->
  exists l, expanded st' = (expanded st ++ l)%list /\ NoDup l /\ (forall p, p ∈ l -> p ∈ dom (fs E)).
Proof.
  intros H. assert (Hx : exists s0 s1, ExpInv E s0 st st' s1).
  { unfold parse in H. bind_inv H. mprim Hm. bind_inv H.
    destruct (CachedRelation _ !! TmplPath self c (name +:+ Ext self)) as [rel|];
      [destruct a as [t|]|].
    1: { mprim Hm. bind_inv H. mprim Hm. bind_inv H. mprim Hm. mprim H.
         exists ∅, ∅. apply ExpInv_same; reflexivity. }
    all: mprim Hm; bind_inv H; mprim Hm; bind_inv H; rewrite RawContent_eq in Hm; injection Hm as <- <-;
      destruct (fs E !! _) as [b|]; cbv beta iota in H;
      [ bind_inv H; apply extend_loop_once in Hm;
        lazymatch type of H with (match ?x with _ => _ end) _ = _ => destruct x as [[[c1 s1] e1]|err] end;
        [ bind_inv H; apply CST_once in Hm0;
          lazymatch type of H with (match ?x with _ => _ end) _ = _ => destruct x as [c2 s2] end; cbv beta iota in H;
          match type of H with ?m _ = _ =>
            assert (Hp : pres (fun a b => expanded b = expanded a) m) by pres_tac same_exp end;
          apply Hp in H; exists ∅, (dom s2);
          eapply ExpInv_trans; [exact Hm|]; eapply ExpInv_trans; [exact Hm0|];
          apply ExpInv_same; [exact H|reflexivity]
        | mprim H; destruct Hm as [s1 Hm]; exists ∅, s1; exact Hm ]
      | mprim H; exists ∅, ∅; apply ExpInv_same; reflexivity ]. }
  destruct Hx as (s0 & s1 & l & H1 & H2 & H3 & _). exists l.
  split; [exact H1|]. split; [exact H2|]. intros p Hp. apply H3 in Hp. tauto.
Qed.

Lemma CST_loop_shape rec c ms : forall content subcs st out subcs' st',
  CST_loop E self rec c ms content subcs st = Some ((out, subcs'), st') ->
  out = fold_left (fun acc v => replace_all acc (m0 v)
                     (include_ref E self (TmplPath self c (m1 v +:+ Ext self)) (m2 v))) ms content \/
  exists v, In v ms /\ fs E !! TmplPath self c (m1 v +:+ Ext self) = None /\
    out = "RenderTemplate " +:+ TmplPath self c (m1 v +:+ Ext self) +:+ " read err: " +:+
          read_err E (TmplPath self c (m1 v +:+ Ext self)).
Proof.
  induction ms as [|v ms IH]; intros content subcs st out subcs' st' H; cbn [CST_loop] in H.
  - injection H as <- _ _. left. reflexivity.
  - cbn [fold_left].
    destruct (subcs !! _) as [x|] eqn:Hs.
    + apply IH in H. destruct H as [H|(w & Hw & H)]; [left; exact H|right; exists w; simpl; tauto].
    + unfold bind at 1 in H. rewrite RawContent_eq in H.
      destruct (fs E !! _) as [b|] eqn:Hf.
      * unfold bind at 1, modify in H. bind_inv H. apply IH in H.
        destruct H as [H|(w & Hw & H)]; [left; exact H|right; exists w; simpl; tauto].
      * injection H as <- _ _. right. exists v. simpl. auto.
Qed.

Lemma CST_shape fuel c content subcs st out subcs' st' :
  ContainsSubTpl E self fuel c content subcs st = Some ((out, subcs'), st') ->
  let ms := FindAll (incTagRegex self) content in
  out = fold_left (fun acc v => replace_all acc (m0 v)
                     (include_ref E self (TmplPath self c (m1 v +:+ Ext self)) (m2 v))) ms content \/
  exists v, In v ms /\ fs E !! TmplPath self c (m1 v +:+ Ext self) = None /\
    out = "RenderTemplate " +:+ TmplPath self c (m1 v +:+ Ext self) +:+ " read err: " +:+
          read_err E (TmplPath self c (m1 v +:+ Ext self)).
Proof.
  destruct fuel as [|f]; intros H; [discriminate H|]. cbn [ContainsSubTpl] in H.
  eapply CST_loop_shape. exact H.
Qed.

End Expansion.

(* ===================================================================== *)
(** * Function clips: one callback call per key and parse                *)
(* ===================================================================== *)












(* ===================================================================== *)
(** * Extend chains: one level of block resolution                       *)
(* ===================================================================== *)

Section Scan.
Local Arguments String.append : simpl nomatch.

Lemma append_String c s t : String c s +:+ t = String c (s +:+ t).
Proof. reflexivity. Qed.


Lemma replace_scan_none r f pos c s : match_at r pos (String c s) = None ->
  replace_scan r f pos 0 (String c s) = String c (replace_scan r f (S pos) 0 s).
Proof.
  intros H. change (replace_scan r f pos 0 (String c s)) with
    (match match_at r pos (String c s) with
     | Some (S n, _) => f (stake (S n) (String c s)) +:+ replace_scan r f (S pos) n s
     | _ => String c (replace_scan r f (S pos) 0 s) end). rewrite H. reflexivity.
Qed.


Lemma replace_scan_skip r f u t : forall pos,
  replace_scan r f pos (String.length u) (u +:+ t) = replace_scan r f (String.length u + pos) 0 t.
Proof.
  induction u as [|c u IH]; intros pos; [reflexivity|].
  simpl. rewrite IH. f_equal. lia.
Qed.


Lemma replace_scan_plain r f (Hr : brace_headed r) P t : plain P = true ->
  forall pos, replace_scan r f pos 0 (P +:+ t) = P +:+ replace_scan r f (String.length P + pos) 0 t.
Proof.
  induction P as [|c P IH]; intros HP pos; [reflexivity|].
  simpl in HP. apply andb_prop in HP as [Hc HP]. apply negb_true_iff in Hc.
  rewrite append_String, replace_scan_none by (apply Hr; exact Hc).
  rewrite IH by exact HP.
  replace (String.length P + S pos) with (String.length (String c P) + pos) by (simpl; lia). reflexivity.
Qed.

Ltac brace_headed_tac :=
  intros pos c u Hc; cbn -[Ascii.eqb]; rewrite Ascii.eqb_sym, Hc; reflexivity.

Lemma rpl_brace : brace_headed (rplTagRegex std0).
Proof. brace_headed_tac. Qed.
Lemma strip_brace : brace_headed (stripTagRegex std0).
Proof. brace_headed_tac. Qed.

Lemma append_assoc_str a b c : (a +:+ b) +:+ c = a +:+ b +:+ c.
Proof. induction a as [|x a IH]; [reflexivity|]. simpl. rewrite IH. reflexivity. Qed.

Lemma length_append_str a b : String.length (a +:+ b) = String.length a + String.length b.
Proof. induction a as [|x a IH]; [reflexivity|]. simpl. rewrite IH. reflexivity. Qed.



Lemma mt_lazy_step {R} p pos c s cs (k : nat -> string -> caps -> option R) :
  mt (RStar p false) pos (String c s) cs k =
  match k pos (String c s) cs with
  | Some x => Some x
  | None => if p c then mt (RStar p false) (S pos) s cs k else None
  end.
Proof. reflexivity. Qed.



Lemma blk_inert : sup_inert (blkTagRegex std0).
Proof. split; intros; reflexivity. Qed.





Lemma stake_app_str a b : stake (String.length a) (a +:+ b) = a.
Proof. induction a as [|x a IH]; [reflexivity|]. simpl. rewrite IH. reflexivity. Qed.

Lemma mt_lazy_hit {R} p pos s cs (k : nat -> string -> caps -> option R) x :
  s <> "" -> k pos s cs = Some x -> mt (RStar p false) pos s cs k = Some x.
Proof. destruct s as [|c s]; [contradiction|]. intros _ H. rewrite mt_lazy_step, H. reflexivity. Qed.






Lemma replace_scan_hit r f pos c s n cs : match_at r pos (String c s) = Some (S n, cs) ->
  replace_scan r f pos 0 (String c s) = f (stake (S n) (String c s)) +:+ replace_scan r f (S pos) n s.
Proof.
  intros H. change (replace_scan r f pos 0 (String c s)) with
    (match match_at r pos (String c s) with
     | Some (S n, _) => f (stake (S n) (String c s)) +:+ replace_scan r f (S pos) n s
     | _ => String c (replace_scan r f (S pos) 0 s) end). rewrite H. reflexivity.
Qed.



Lemma append_nil_str a : a +:+ "" = a.
Proof. induction a as [|x a IH]; [reflexivity|]. simpl. rewrite IH. reflexivity. Qed.


















Lemma index_supm_plain P t : plain P = true ->
  index supm (P +:+ t) = option_map (fun n => String.length P + n) (index supm t).
Proof.
  induction P as [|a P IH]; intros HP.
  - cbn. destruct (index supm t); reflexivity.
  - cbn in HP. apply andb_prop in HP as [Ha HP].
    rewrite append_String. change (index supm (String a (P +:+ t))) with
      (if has_prefix supm (String a (P +:+ t)) then Some 0 else
       match index supm (P +:+ t) with Some n => Some (S n) | None => None end).
    replace (has_prefix supm (String a (P +:+ t))) with false.
    2: { unfold has_prefix. cbn -[Ascii.eqb]. rewrite Ascii.eqb_sym.
         destruct (Ascii.eqb a "{"); [discriminate|reflexivity]. }
    rewrite IH by exact HP. destruct (index supm t); reflexivity.
Qed.


Lemma contains_plain P : plain P = true -> contains P supm = false.
Proof.
  intros HP. unfold contains. rewrite <- (append_nil_str P), index_supm_plain by exact HP.
  reflexivity.
Qed.






Lemma is_Some_insert_inv {A} (m : gmap string A) a x k :
  is_Some (<[a := x]> m !! k) -> k = a \/ is_Some (m !! k).
Proof. rewrite lookup_insert_is_Some. intros [->|[_ H]]; auto. Qed.

Lemma PE_loop_rec E self fuel c hp po ms : forall s st s' st',
  PE_loop E self fuel c hp po ms s st = Some (s', st') ->
  forall k, is_Some (pe_rec s' !! k) -> is_Some (pe_rec s !! k) \/ layout_key ms k.
Proof.
  induction ms as [|v ms IH]; intros s st s' st' H k Hk; cbn [PE_loop] in H.
  - injection H as <- <-. left; exact Hk.
  - assert (Hw : forall k, layout_key ms k -> layout_key (v :: ms) k).
    { intros k' (w & Hw & Hk'). exists w. split; [right; exact Hw|exact Hk']. }
    destruct (pe_extcs s !! m1 v) as [val|].
    + destruct (pe_rec s !! m1 v) as [idx|] eqn:Hi; cbv beta iota zeta in H; bind_inv H;
      lazymatch type of Hm with _ = Some (?ax, _) => destruct ax as [[[val' extcs'] sup'] subcs'] end;
      cbv beta iota zeta in H; destruct (negb _) in H; apply (fun HH => IH _ _ _ _ HH k Hk) in H; cbn [pe_rec] in H;
      (destruct H as [H|H]; [|right; apply Hw; exact H]); auto;
      repeat match type of H with
      | is_Some (<[_ := _]> _ !! _) => apply is_Some_insert_inv in H; destruct H as [H|H]
      end; auto;
      right; exists v; (split; [left; reflexivity|]); subst k; auto.
      right. exists ((idx + 1) mod 256). reflexivity.
      left. apply append_nil_str.
    + apply (fun HH => IH _ _ _ _ HH k Hk) in H. cbn [pe_rec] in H.
      destruct H as [H|H]; [left; exact H|right; apply Hw; exact H].
Qed.

End Scan.

(* ===================================================================== *)
(** * The claims                                                          *)
(* ===================================================================== *)

(** C9: when the cache entry of a name holds a standalone tree, Render and
    Fetch of that name read no file, expand nothing, call no Function
    callback and leave the cache as it is: they return the cached tree,
    with its definitions unchanged, after binding the caller's function
    map (with the two block helpers) onto it. *)
Theorem cache_hit_skips_pipeline E self c name st rel ti t :
  CachedRelation st !! TmplPath self c (name +:+ Ext self) = Some rel ->
  heap st !! Tpl0 rel = Some ti -> Template ti = Some t ->
  let tmpl := Funcs t (setFunc (Tpl0 rel) (c_funcs c ∪ default ∅ (getFuncs self))) in
  exists st',
    parse E self c name st = Some ((Some tmpl, None), st') /\
    (forall d, Render E self c name d st =
               Some ((let '(out, e) := exec E tmpl (tname tmpl) d in Returned out e), st')) /\
    (forall d, Fetch E self c name d st = Some (execute E (Some tmpl) d, st')) /\
    reads st' = reads st /\ expanded st' = expanded st /\ calls st' = calls st /\
    CachedRelation st' = CachedRelation st /\
    tname tmpl = tname t /\ tdefs tmpl = tdefs t.
Proof.
  intros Hc Hh Ht tmpl.
  pose proof (parse_hit E self c name st rel ti t Hc Hh Ht) as Hp.
  eexists. split; [exact Hp|].
  split; [|split].
  - intros d. unfold Render. rewrite (bind_eq _ _ _ _ _ Hp). cbv zeta.
    destruct (exec E _ _ d); reflexivity.
  - intros d. unfold Fetch. rewrite (bind_eq _ _ _ _ _ Hp). reflexivity.
  - repeat split.
Qed.

(** C10: every template that parse returns, compiled or taken from the
    cache, has hasBlock and hasAnyBlock bound to the helpers of one
    [tplInfo] [p]; after a successful parse, [p] is the standalone entry
    cached under the name, holding the returned tree; hasBlock of a list
    of names is true iff all of them are in that entry's block set, and
    hasAnyBlock iff one of them is. *)
Theorem parse_binds_block_helpers E self c name st tmpl err st' :
  parse E self c name st = Some ((Some tmpl, err), st') ->
  exists p,
    tfuncs tmpl !! "hasBlock" = Some (FHasBlock p) /\
    tfuncs tmpl !! "hasAnyBlock" = Some (FHasAnyBlock p) /\
    (err = None -> exists rel ti,
       CachedRelation st' !! TmplPath self c (name +:+ Ext self) = Some rel /\
       Tpl0 rel = p /\ heap st' !! p = Some ti /\ Template ti = Some tmpl) /\
    (forall h bs, call_hasBlock h p bs = true <->
                  Forall (fun b => b ∈ Blocks (default (NewTplInfo None) (h !! p))) bs) /\
    (forall h bs, call_hasAnyBlock h p bs = true <->
                  Exists (fun b => b ∈ Blocks (default (NewTplInfo None) (h !! p))) bs).
Proof.
  intros H. destruct (parse_funcs E self c name st tmpl err st' H) as (p & H1 & H2 & H3).
  exists p. repeat split; auto; intros; apply call_hasBlock_spec || apply call_hasAnyBlock_spec; auto.
Qed.

(** C4: for a name whose file cannot be read, Fetch compiles the read
    error text as the template; when the evaluator rejects that text (for
    instance when it holds an unclosed action, as a name containing the
    left delimiter makes it), the compiled template is nil and Fetch
    panics on executing it. *)
Theorem Fetch_panics_when_read_error_does_not_parse E self c name d st :
  let key := TmplPath self c (name +:+ Ext self) in
  CachedRelation st !! key = None -> fs E !! key = None ->
  (forall fm, parse_error E fm (read_err E key) <> None) ->
  exists st', Fetch E self c name d st = Some (Panicked, st').
Proof.
  intros key Hc Hf Hp.
  destruct (parse_load_error E self c name st Hc Hf) as (p & st' & Hparse & _).
  exists st'. unfold Fetch. rewrite (bind_eq _ _ _ _ _ Hparse). unfold TParse.
  destruct (parse_error E _ _) eqn:He; [reflexivity|]. exfalso. eapply Hp. exact He.
Qed.



(** C7: parse always returns (the budget given to include expansion never
    runs out, also for a file that includes itself directly or
    transitively); the paths a parse expands are distinct readable files,
    each expanded once, the pool being registered before the recursion; a
    run of ContainsSubTpl replaces every Include match, in order, by its
    reference construct, unless a target cannot be read, in which case the
    whole content becomes that target's read error message. *)
Theorem include_expansion_terminates_once_per_path E self c name st :
  (exists r st', parse E self c name st = Some (r, st')) /\
  (forall r st', parse E self c name st = Some (r, st') ->
     exists l, expanded st' = (expanded st ++ l)%list /\ NoDup l /\ (forall p, p ∈ l -> p ∈ dom (fs E))) /\
  (forall content subcs st1 out subcs' st2,
     ContainsSubTpl E self (fuel0 E) c content subcs st1 = Some ((out, subcs'), st2) ->
     let ms := FindAll (incTagRegex self) content in
     out = fold_left (fun acc v => replace_all acc (m0 v)
                        (include_ref E self (TmplPath self c (m1 v +:+ Ext self)) (m2 v))) ms content \/
     exists v, In v ms /\ fs E !! TmplPath self c (m1 v +:+ Ext self) = None /\
       out = "RenderTemplate " +:+ TmplPath self c (m1 v +:+ Ext self) +:+ " read err: " +:+
             read_err E (TmplPath self c (m1 v +:+ Ext self))).
Proof.
  split; [apply tot_parse|]. split.
  - intros r st' H. eapply parse_once. exact H.
  - intros content subcs st1 out subcs' st2 H. eapply CST_shape. exact H.
Qed.





(** C3 (as the code has it): ParseExtend keeps only the blocks whose name
    is matched, possibly with a repeat suffix, by a paired Block tag of the
    layout after its self-closing placeholders are filled with the
    descendant's values.  A descendant's value filled into a placeholder
    can thus bring in a paired Block tag of a name the ancestor never
    mentions, and that block survives. *)
Theorem only_layout_blocks_survive E self fuel c content extcs po subcs st r st' :
  ParseExtend E self fuel c content extcs po subcs st = Some (r, st') ->
  forall k, is_Some (r.1.2 !! k) ->
  layout_key (FindAll (blkTagRegex self) (fill_placeholders self content extcs)) k.
Proof.
  unfold ParseExtend. intros H k Hk. bind_inv H. cbv [ret] in H. injection H as <- <-.
  cbn [fst snd] in Hk. rewrite map_lookup_filter in Hk.
  destruct (pe_extcs a !! k) eqn:He; cbn in Hk; [|destruct Hk as [? Hk]; discriminate].
  destruct (guard _) eqn:Hg in Hk; [|destruct Hk as [? Hk]; discriminate].
  pose proof (PE_loop_rec _ _ _ _ _ _ _ _ _ _ _ Hm k i) as Hr. cbn [pe_rec] in Hr.
  destruct Hr as [[? Hx]|Hx]; [rewrite lookup_empty in Hx; discriminate|exact Hx].
Qed.

(* ===================================================================== *)
(** * Further properties of the driver                                  *)
(* ===================================================================== *)



Lemma on_file_event_cached name typ event st :
  (event = "delete" \/ event = "modify" \/ event = "rename") -> typ <> "dir" ->
  is_Some (CachedRelation st !! name) -> on_file_event name typ event st = Some (tt, set_cache ∅ st).
Proof.
  intros He Ht [x Hx]. unfold on_file_event, deleteCachedRelation, bind, gets, modify, ret.
  replace (String.eqb event "delete" || String.eqb event "modify" || String.eqb event "rename") with true
    by (destruct He as [He|[He|He]]; subst event; reflexivity).
  apply String.eqb_neq in Ht. rewrite Ht, Hx. reflexivity.
Qed.



(** [ClearCache] empties the cache and keeps the [tplInfo] objects; a
    parse after it reads the page's file again, as its first read. *)
Theorem ClearCache_forces_reread E self st u st1 c name r st2 :
  ClearCache st = Some (u, st1) ->
  parse E self c name st1 = Some (r, st2) ->
  CachedRelation st1 = ∅ /\ heap st1 = heap st /\
  exists l, reads st2 = (reads st ++ TmplPath self c (name +:+ Ext self) :: l)%list.
Proof.
  unfold ClearCache, modify. intros H1 H2. injection H1 as _ <-.
  split; [reflexivity|split; [reflexivity|]].
  destruct (reads_parse_miss E self c name (set_cache ∅ st) r st2 (lookup_empty _) H2) as [l Hl].
  exists l. exact Hl.
Qed.

Lemma parse_some_result E self c name st o e st' :
  parse E self c name st = Some ((o, e), st') -> o = None -> e <> None.
Proof.
  intros H. unfold parse in H.
  bind_inv H. mprim Hm. bind_inv H.
  destruct (CachedRelation _ !! _) as [rel|]; [destruct a as [t|]|].
  1: { mprim Hm. bind_inv H. bind_inv H. mprim H. discriminate. }
  all: mprim Hm; bind_inv H; mprim Hm; bind_inv H; rewrite RawContent_eq in Hm; injection Hm as <- <-;
    destruct (fs E !! _) as [b|]; cbv beta iota in H;
    [ bind_inv H;
      lazymatch type of H with (match ?x with _ => _ end) _ = _ => destruct x as [[[c1 s1] e1]|err] end;
      [ bind_inv H; lazymatch type of H with (match ?x with _ => _ end) _ = _ => destruct x as [c2 s2] end;
        cbv beta iota in H; bind_inv H;
        lazymatch type of H with (match ?x with _ => _ end) _ = _ => destruct x as [c3 cl3] end;
        cbv beta iota in H;
        lazymatch type of H with context [TParse ?E0 ?t0 ?x] => destruct (TParse E0 t0 x) as [[tm|] [e0|]] end;
        [ mprim H; congruence
        | bind_inv H; lazymatch type of H with (match ?x with _ => _ end) _ = _ => destruct x as [[tm1 cl1] [e3|]] end;
          [ mprim H; discriminate
          | bind_inv H; lazymatch type of H with (match ?x with _ => _ end) _ = _ => destruct x as [[tm2 cl2] [e4|]] end;
            [ mprim H; discriminate
            | bind_inv H; bind_inv H; bind_inv H; mprim H; discriminate ] ]
        | mprim H; congruence
        | mprim H; congruence ]
      | mprim H; congruence ]
    | mprim H; congruence ].
Qed.

(** [Render] never reaches the nil-template [Execute]: whenever compilation
    returns no template it also returns an error, which [Render] passes
    on. *)
Theorem Render_never_panics E self c name d st o st' :
  Render E self c name d st = Some (o, st') -> o <> Panicked.
Proof.
  unfold Render. intros H. bind_inv H. destruct a as [[t|] [e|]].
  - mprim H. discriminate.
  - destruct (exec E t (tname t) d). mprim H. discriminate.
  - mprim H. discriminate.
  - exfalso. eapply parse_some_result; [exact Hm|reflexivity|reflexivity].
Qed.


Lemma strip_prefix_app a b s :
  strip_prefix (a +:+ b) s = match strip_prefix a s with Some s' => strip_prefix b s' | None => None end.
Proof.
  revert s. induction a as [|x a IH]; intros s; [reflexivity|].
  rewrite append_String. destruct s as [|y s]; [reflexivity|]. cbn [strip_prefix].
  destruct (Ascii.eqb x y); [apply IH|reflexivity].
Qed.








Lemma ParseBlock_loop_keys E self fuel c ms : forall subcs extcs st subcs' extcs' st',
  ParseBlock_loop E self fuel c ms subcs extcs st = Some ((subcs', extcs'), st') ->
  (forall k, Forall (fun v => m1 v <> k) ms -> extcs' !! k = extcs !! k) /\
  (forall ms1 v ms2, ms = (ms1 ++ v :: ms2)%list -> Forall (fun w => m1 w <> m1 v) ms2 ->
     FindAll (incTagRegex self) (m2 v) = [] -> extcs' !! m1 v = Some (m2 v)).
Proof.
  induction ms as [|v ms IH]; intros subcs extcs st subcs' extcs' st' H; cbn [ParseBlock_loop] in H.
  - injection H as <- <- <-. split; [reflexivity|]. intros ms1 v ms2 Hm. destruct ms1; discriminate Hm.
  - bind_inv H. destruct (IH _ _ _ _ _ _ H) as [H1 H2]. split.
    + intros k Hk. inversion Hk as [|? ? Hv Hk']; subst. rewrite H1 by exact Hk'.
      apply lookup_insert_ne. exact Hv.
    + intros ms1 w ms2 Heq Hl Hi. destruct ms1 as [|x ms1]; cbn in Heq; injection Heq as <- Heq.
      * subst ms. rewrite H1 by exact Hl. rewrite lookup_insert_eq.
        destruct fuel as [|f]; [discriminate Hm|]. cbn [ContainsSubTpl] in Hm. rewrite Hi in Hm.
        cbn [CST_loop ret] in Hm. injection Hm as <- _. reflexivity.
      * eapply H2; eassumption.
Qed.

(** [ParseBlock] records a value for the names of the paired blocks of the
    content only: a name defined several times keeps its last definition
    (its body, when that holds no Include), and names not defined keep
    their previous value. *)
Theorem ParseBlock_last_definition_wins E self fuel c content subcs extcs st subcs' extcs' st' :
  ParseBlock E self fuel c content subcs extcs st = Some ((subcs', extcs'), st') ->
  let ms := FindAll (blkTagRegex self) content in
  (forall k, Forall (fun v => m1 v <> k) ms -> extcs' !! k = extcs !! k) /\
  (forall ms1 v ms2, ms = (ms1 ++ v :: ms2)%list -> Forall (fun w => m1 w <> m1 v) ms2 ->
     FindAll (incTagRegex self) (m2 v) = [] -> extcs' !! m1 v = Some (m2 v)).
Proof. unfold ParseBlock. apply ParseBlock_loop_keys. Qed.

Lemma PE_loop_defaults E self fuel c po ms : forall s st,
  Forall (fun v => pe_extcs s !! m1 v = None) ms ->
  PE_loop E self fuel c false po ms s st =
    Some ({| pe_content := fold_left (fun acc v => replace1 acc (m0 v) (m2 v)) ms (pe_content s);
             pe_extcs := pe_extcs s; pe_rec := pe_rec s; pe_sup := pe_sup s; pe_subcs := pe_subcs s |}, st).
Proof.
  induction ms as [|v ms IH]; intros s st Hn.
  - destruct s; reflexivity.
  - inversion Hn as [|? ? Hv Hn']; subst. cbn [PE_loop]. rewrite Hv. rewrite IH by exact Hn'. reflexivity.
Qed.

(** On a layout without Extend whose paired blocks have no descendant
    value, [ParseExtend] fills the placeholders, replaces each paired block
    by its own body, returns no further chain step and no block to keep,
    and neither reads nor changes the state. *)
Theorem ParseExtend_top_layout_defaults E self fuel c content extcs po subcs st :
  FindFirst (extTagRegex self) content = [] ->
  let ms := FindAll (blkTagRegex self) (fill_placeholders self content extcs) in
  Forall (fun v => extcs !! m1 v = None) ms ->
  ParseExtend E self fuel c content extcs po subcs st =
    Some ((fold_left (fun acc v => replace1 acc (m0 v) (m2 v)) ms (fill_placeholders self content extcs),
           [], ∅, subcs), st).
Proof.
  intros Hf ms Hn. unfold ParseExtend. rewrite Hf. cbv zeta.
  replace (negb (bool_decide (@nil submatch = []))) with false by (rewrite bool_decide_eq_true_2; reflexivity).
  unfold bind. rewrite PE_loop_defaults by exact Hn. cbn [pe_content pe_extcs pe_rec pe_subcs ret].
  rewrite (map_empty_filter_2 _ extcs); [reflexivity|].
  intros k x _. cbn. rewrite lookup_empty. intros [y Hy]. discriminate Hy.
Qed.

Ltac tfuncs_end :=
  repeat match goal with
  | Hx : subcs_loop _ _ _ _ _ _ _ _ = Some _ |- _ => apply subcs_loop_funcs in Hx; rewrite Hx
  | Hx : extcs_loop _ _ _ _ _ _ _ _ _ = Some _ |- _ => apply extcs_loop_funcs in Hx; rewrite Hx
  | Hx : TParse _ _ _ = (Some _, _) |- _ => apply TParse_funcs' in Hx; rewrite Hx
  | Hx : (TParse _ _ _).1 = Some _ |- _ => apply TParse_funcs in Hx; rewrite Hx
  end;
  eexists _, _; reflexivity.

Lemma parse_tfuncs E self c name st tmpl err st' :
  parse E self c name st = Some ((Some tmpl, err), st') ->
  exists p X, tfuncs tmpl = setFunc p (c_funcs c ∪ default ∅ (getFuncs self)) ∪ X.
Proof.
  intros H. unfold parse in H.
  bind_inv H. bind_inv H. unfold gets in Hm. injection Hm as <- <-.
  destruct (CachedRelation st !! _) as [rel|] eqn:Hc; [destruct a0 as [t|]|].
  1: { bind_inv H. bind_inv H. unfold ret in H. injection H as <- <- <-. eexists _, _. reflexivity. }
  all: bind_inv H; bind_d H as [content|e];
    [ bind_d H as [[[content0 subcs] extcs]|e];
      [ bind_d H as [content1 subcs1];
        bind_d H as [content2 clips];
        lazymatch type of H with
        | context [TParse ?E0 ?t0 ?x] => destruct (TParse E0 t0 x) as [[tm|] [e|]] eqn:HT
        end;
        [ mprim H; tfuncs_end
        | bind_d H as [[tm1 clips1] [e|]];
          [ mprim H; tfuncs_end
          | bind_d H as [[tm2 clips2] [e|]];
            [ mprim H; tfuncs_end
            | bind_inv H; bind_d H as []; bind_d H as []; mprim H; tfuncs_end ] ]
        | mprim H; tfuncs_end
        | mprim H; tfuncs_end ]
      | mprim H; tfuncs_end ]
    | mprim H; tfuncs_end ].
Qed.

(** Parsing a name again after it compiled without error returns the same
    tree and leaves the state unchanged: the cache entry is reused. *)
Theorem parse_again_returns_same E self c name st t st' :
  parse E self c name st = Some ((Some t, None), st') ->
  parse E self c name st' = Some ((Some t, None), st').
Proof.
  intros H.
  destruct (parse_funcs E self c name st t None st' H) as (p & Hb & _ & Hc).
  destruct (Hc eq_refl) as (rel & ti & Hk & <- & Hh & Ht).
  destruct (parse_tfuncs E self c name st t None st' H) as (p' & X & Hf).
  rewrite (parse_hit E self c name st' rel ti t Hk Hh Ht).
  assert (Hp : p' = Tpl0 rel).
  { rewrite Hf in Hb. unfold setFunc in Hb.
    rewrite lookup_union_l' in Hb by (rewrite lookup_insert_ne by discriminate; rewrite lookup_insert_eq; eauto).
    rewrite lookup_insert_ne, lookup_insert_eq in Hb by discriminate. congruence. }
  subst p'.
  assert (Ht' : Funcs t (setFunc (Tpl0 rel) (c_funcs c ∪ default ∅ (getFuncs self))) = t).
  { destruct t as [n fs0 ds]. unfold Funcs. cbn in Hf |- *. rewrite Hf.
    rewrite (assoc_L (∪)), (idemp_L (∪)). reflexivity. }
  rewrite Ht'. destruct ti as [tt0 bs]. cbn in Ht. subst tt0.
  rewrite insert_id by exact Hh. destruct st'; reflexivity.
Qed.

Lemma cache_grows_refl st : cache_grows st st.
Proof. intros k H. exact H. Qed.

Lemma cache_grows_trans st1 st2 st3 : cache_grows st1 st2 -> cache_grows st2 st3 -> cache_grows st1 st3.
Proof. intros H1 H2 k H. apply H2, H1, H. Qed.

Ltac cg_tac :=
  first
  [ exact cache_grows_refl
  | exact cache_grows_trans
  | intros; intros k0 Hk0; exact Hk0
  | intros; intros k0 Hk0; cbn; apply lookup_insert_is_Some'; right; exact Hk0
  | intros ti0 st0' a0 st0'' Ha; injection Ha as <- <-; intros k0 Hk0; exact Hk0 ].

Ltac cg_pres H :=
  lazymatch type of H with ?m ?s0 = Some (_, ?s1) =>
    let Hp := fresh "Hp" in
    assert (Hp : pres cache_grows m) by
      (repeat (match goal with
        | |- pres _ (bind _ _) => eapply pres_bind; [cg_tac| |intros ?]
        | |- pres _ (ret _) => eapply pres_ret; cg_tac
        | |- pres _ (ContainsFunctionResult _ _ _ _ _) => eapply pres_CFR; cg_tac
        | |- pres _ (match ?x with _ => _ end) => destruct x
        end || (progress cbv beta iota zeta)));
    let Hg := fresh "Hg" in
    assert (Hg : cache_grows s0 s1) by (eapply Hp; exact H); clear Hp
  end.

Lemma subcs_loop_caches E self c o items : forall tmpl clips st tmpl' clips' st',
  subcs_loop E self c o items tmpl clips st = Some ((tmpl', clips', None), st') ->
  cache_grows st st' /\ forall name, In name (map fst items) -> is_Some (CachedRelation st' !! name).
Proof.
  induction items as [|[name subc] items IH]; intros tmpl clips st tmpl' clips' st' H; cbn [subcs_loop] in H.
  - mprim H. split; [apply cache_grows_refl|intros ? []].
  - bind_inv H. mprim Hm.
    match goal with |- cache_grows ?s _ /\ _ => rename s into stA end.
    assert (Hstep : exists st1 tm cl, cache_grows stA st1 /\ is_Some (CachedRelation st1 !! name) /\
                      subcs_loop E self c o items tm cl st1 = Some ((tmpl', clips', None), st')).
    { destruct (CachedRelation stA !! name) as [v|] eqn:Hc.
      - bind_inv H. mprim Hm. destruct (Template _) as [t1|].
        + do 3 eexists. split; [apply cache_grows_refl|]. split; [rewrite Hc; eauto|exact H].
        + bind_inv H. cg_pres Hm.
          cbv beta iota in H; lazymatch type of H with (match ?x with _ => _ end) _ = _ => destruct x as [[[tm t] cl]|[[tm cl] err]] end;
            [|mprim H; discriminate].
          bind_inv H. rewrite ?Hc in Hm0. bind_inv Hm0. mprim Hm0. mprim Hm1.
          do 3 eexists. split; [|split; [|exact H]].
          * intros k Hk. apply Hg, Hk.
          * apply Hg. rewrite Hc. eauto.
      - bind_inv H. mprim Hm. bind_inv H. cg_pres Hm.
        cbv beta iota in H; lazymatch type of H with (match ?x with _ => _ end) _ = _ => destruct x as [[[tm t] cl]|[[tm cl] err]] end;
          [|mprim H; discriminate].
        bind_inv H. rewrite ?Hc in Hm0. bind_inv Hm0. bind_inv Hm0. mprim Hm0. mprim Hm1. mprim Hm2.
        do 3 eexists. split; [|split; [|exact H]].
        + intros k Hk. cbn. apply lookup_insert_is_Some'. right. apply Hg, Hk.
        + cbn. rewrite lookup_insert_eq. eauto. }
    destruct Hstep as (st1 & tm & cl & Hg1 & Hn & Hr).
    destruct (IH _ _ _ _ _ _ Hr) as [Hg2 Hall]. split; [exact (cache_grows_trans _ _ _ Hg1 Hg2)|].
    intros n [<-|Hin]; [apply Hg2, Hn|apply Hall, Hin].
Qed.

Lemma extcs_loop_grows E self c o relp items tmpl clips st r st' :
  extcs_loop E self c o relp items tmpl clips st = Some (r, st') -> cache_grows st st'.
Proof.
  intros H. eapply (pres_extcs_loop cache_grows); [cg_tac ..|exact H].
Qed.

Ltac exp_same :=
  intros; first
  [ reflexivity
  | match goal with Hx : alloc _ _ = Some _ |- _ => injection Hx as <- <-; reflexivity end
  | congruence ].

Lemma expanded_keep_CFR self c o content clips st r st' :
  ContainsFunctionResult self c o content clips st = Some (r, st') -> expanded st' = expanded st.
Proof.
  intros H. eapply (pres_CFR (fun a b => expanded b = expanded a)); [exp_same ..|exact H].
Qed.

Lemma expanded_keep_subcs_loop E self c o items tmpl clips st r st' :
  subcs_loop E self c o items tmpl clips st = Some (r, st') -> expanded st' = expanded st.
Proof.
  intros H. eapply (pres_subcs_loop (fun a b => expanded b = expanded a)); [exp_same ..|exact H].
Qed.

Lemma expanded_keep_extcs_loop E self c o relp items tmpl clips st r st' :
  extcs_loop E self c o relp items tmpl clips st = Some (r, st') -> expanded st' = expanded st.
Proof.
  intros H. eapply (pres_extcs_loop (fun a b => expanded b = expanded a)); [exp_same ..|exact H].
Qed.

Lemma parse_expanded_cached E self c name st t st' :
  parse E self c name st = Some ((Some t, None), st') ->
  exists l, expanded st' = (expanded st ++ l)%list /\ forall p, p ∈ l -> is_Some (CachedRelation st' !! p).
Proof.
  intros H. unfold parse in H. bind_inv H. mprim Hm. bind_inv H.
  destruct (CachedRelation _ !! TmplPath self c (name +:+ Ext self)) as [rel|]; [destruct a as [t0|]|].
  1: { mprim Hm. bind_inv H. mprim Hm. bind_inv H. mprim Hm. mprim H.
       exists []. split; [rewrite app_nil_r; reflexivity|intros p Hp; apply elem_of_nil in Hp; contradiction]. }
  all: mprim Hm; bind_inv H; mprim Hm; bind_inv H; rewrite RawContent_eq in Hm; injection Hm as <- <-;
    destruct (fs E !! _) as [b|]; cbv beta iota in H; [|mprim H; discriminate].
  all: bind_inv H; apply extend_loop_once in Hm;
    lazymatch type of H with (match ?x with _ => _ end) _ = _ => destruct x as [[[c1 s1] e1]|err] end;
    [|mprim H; discriminate].
  all: bind_inv H; apply CST_once in Hm0;
    lazymatch type of H with (match ?x with _ => _ end) _ = _ => destruct x as [c2 s2] end; cbv beta iota in H;
    bind_inv H; apply expanded_keep_CFR in Hm1;
    lazymatch type of H with (match ?x with _ => _ end) _ = _ => destruct x as [c3 cl3] end; cbv beta iota in H;
    lazymatch type of H with context [TParse ?E0 ?t0 ?x] => destruct (TParse E0 t0 x) as [[tm|] [e0|]] end;
    try (mprim H; discriminate).
  all: bind_inv H;
    lazymatch type of H with (match ?x with _ => _ end) _ = _ => destruct x as [[tm1 cl1] [e5|]] end;
    [mprim H; discriminate|];
    pose proof Hm2 as Hs; apply expanded_keep_subcs_loop in Hm2; apply subcs_loop_caches in Hs;
    destruct Hs as [Hg1 Hall];
    bind_inv H;
    lazymatch type of H with (match ?x with _ => _ end) _ = _ => destruct x as [[tm2 cl2] [e6|]] end;
    [mprim H; discriminate|];
    pose proof Hm3 as Hg2; apply expanded_keep_extcs_loop in Hm3; apply extcs_loop_grows in Hg2;
    bind_inv H; bind_d H as []; bind_d H as []; mprim H;
    repeat match goal with Hx : _ = Some (_, _) |- _ => progress mprim Hx end.
  all: destruct (ExpInv_trans _ _ _ _ _ _ _ Hm Hm0) as (l & Hl & _ & Hp & _);
    exists l; split;
    [ cbn; rewrite Hm3, Hm2, Hm1, Hl; reflexivity
    | intros p Hin; apply Hp in Hin; destruct Hin as (_ & Hin & _);
      cbn; apply lookup_insert_is_Some'; right; apply Hg2, Hall;
      apply elem_of_dom in Hin; destruct Hin as [x Hx];
      apply in_map_iff; exists (p, x); split; [reflexivity|];
      apply list_elem_of_In, elem_of_map_to_list; exact Hx ].
Qed.

Lemma RX_refl E st : RX E st st.
Proof.
  exists [], []. rewrite !app_nil_r. repeat split; [|apply cache_grows_refl].
  intros p Hp. apply elem_of_nil in Hp. contradiction.
Qed.

Lemma RX_trans E st1 st2 st3 : RX E st1 st2 -> RX E st2 st3 -> RX E st1 st3.
Proof.
  intros (lr1 & le1 & R1 & X1 & P1 & G1) (lr2 & le2 & R2 & X2 & P2 & G2).
  exists (lr1 ++ lr2)%list, (le1 ++ le2)%list.
  split; [rewrite R2, R1, app_assoc; reflexivity|].
  split; [rewrite X2, X1, app_assoc; reflexivity|].
  split; [|exact (cache_grows_trans _ _ _ G1 G2)].
  intros p Hp Hf. apply elem_of_app in Hp as [Hp|Hp]; apply elem_of_app; [left|right]; auto.
Qed.

Lemma RX_quiet E st st' : reads st' = reads st -> expanded st' = expanded st -> cache_grows st st' -> RX E st st'.
Proof.
  intros R X G. exists [], []. rewrite !app_nil_r. split; [exact R|split; [exact X|split; [|exact G]]].
  intros p Hp. apply elem_of_nil in Hp. contradiction.
Qed.

Lemma RX_expand E t st : RX E st (log_expanded t (log_read t st)).
Proof.
  exists [t], [t]. repeat split; [|intros k Hk; exact Hk].
  intros p Hp _. exact Hp.
Qed.

Lemma RX_unreadable E t st : fs E !! t = None -> RX E st (log_read t st).
Proof.
  intros Hf. exists [t], []. rewrite app_nil_r. repeat split; [|intros k Hk; exact Hk].
  intros p Hp Hd. apply list_elem_of_singleton in Hp. subst p. apply not_elem_of_dom in Hf. contradiction.
Qed.

Section ReadExp.

Variable E : Env.

Variable self : Standard.

Lemma CST_loop_RX rec c :
  (forall s sc st r st', rec c s sc st = Some (r, st') -> RX E st st') ->
  forall ms content subcs st r st',
    CST_loop E self rec c ms content subcs st = Some (r, st') -> RX E st st'.
Proof.
  intros Hrec ms. induction ms as [|v ms IH]; intros content subcs st r st' H; cbn [CST_loop] in H.
  - injection H as <- <-. apply RX_refl.
  - destruct (subcs !! _) as [x|] eqn:Hs; [eapply IH; exact H|].
    unfold bind at 1 in H. rewrite RawContent_eq in H.
    destruct (fs E !! _) as [b|] eqn:Hf.
    + unfold bind at 1, modify in H. bind_inv H.
      apply Hrec in Hm. apply IH in H.
      eapply RX_trans; [apply RX_expand|]. eapply RX_trans; eassumption.
    + injection H as <- <-. apply RX_unreadable. exact Hf.
Qed.

Lemma CST_RX fuel : forall c content subcs st r st',
  ContainsSubTpl E self fuel c content subcs st = Some (r, st') -> RX E st st'.
Proof.
  induction fuel as [|f IH]; intros c content subcs st r st' H; [discriminate H|].
  cbn [ContainsSubTpl] in H. eapply CST_loop_RX; [|exact H]. intros. eapply IH. eassumption.
Qed.

Lemma ParseBlock_loop_RX fuel c ms : forall subcs extcs st r st',
  ParseBlock_loop E self fuel c ms subcs extcs st = Some (r, st') -> RX E st st'.
Proof.
  induction ms as [|v ms IH]; intros subcs extcs st r st' H; cbn [ParseBlock_loop] in H.
  - injection H as <- <-. apply RX_refl.
  - bind_inv H. apply CST_RX in Hm. apply IH in H. eapply RX_trans; eassumption.
Qed.

Lemma PE_loop_RX fuel c hp po ms : forall s st s' st',
  PE_loop E self fuel c hp po ms s st = Some (s', st') -> RX E st st'.
Proof.
  induction ms as [|v ms IH]; intros s st s' st' H; cbn [PE_loop] in H.
  - injection H as <- <-. apply RX_refl.
  - destruct (pe_extcs s !! m1 v) as [val|]; [|apply IH in H; exact H].
    destruct (pe_rec s !! m1 v); cbv beta iota zeta in H; bind_inv H;
    (lazymatch type of Hm with _ = Some (?ax, ?sty) => assert (Hr : RX E st sty) end;
    [ clear H;
      repeat match type of Hm with
           | (match ?x with _ => _ end) _ = _ => destruct x
           | bind _ _ _ = _ => bind_inv Hm
           end;
      repeat match goal with
           | Hx : ContainsSubTpl _ _ _ _ _ _ _ = Some _ |- _ => apply CST_RX in Hx
           | Hx : ret _ _ = Some _ |- _ => cbv [ret] in Hx; injection Hx as <- <-
           end;
      first [ apply RX_refl | assumption ]
    | lazymatch type of Hm with _ = Some (?ax, _) => destruct ax as [[[val' extcs'] sup'] subcs'] end;
      cbv beta iota zeta in H; destruct (negb _) in H; apply IH in H; eapply RX_trans; eassumption ]).
Qed.

Lemma ParseExtend_RX fuel c content extcs po subcs st r st' :
  ParseExtend E self fuel c content extcs po subcs st = Some (r, st') -> RX E st st'.
Proof.
  unfold ParseExtend. intros H. bind_inv H. apply PE_loop_RX in Hm.
  cbv [ret] in H. injection H as <- <-. exact Hm.
Qed.

End ReadExp.

Lemma RY_of_RX E st st' : RX E st st' -> RY E st st'.
Proof.
  intros (lr & le & R & X & P & G). exists lr, le. repeat split; auto.
Qed.

Lemma RY_trans E st1 st2 st3 : RY E st1 st2 -> RY E st2 st3 -> RY E st1 st3.
Proof.
  intros (lr1 & le1 & R1 & X1 & P1 & G1) (lr2 & le2 & R2 & X2 & P2 & G2).
  exists (lr1 ++ lr2)%list, (le1 ++ le2)%list.
  split; [rewrite R2, R1, app_assoc; reflexivity|].
  split; [rewrite X2, X1, app_assoc; reflexivity|].
  split; [|exact (cache_grows_trans _ _ _ G1 G2)].
  intros p Hp Hf. apply elem_of_app in Hp as [Hp|Hp].
  - destruct (P1 p Hp Hf) as [H|H]; [left; apply elem_of_app; left; exact H|right; apply G2, H].
  - destruct (P2 p Hp Hf) as [H|H]; [left; apply elem_of_app; right; exact H|right; exact H].
Qed.

Lemma register_file_spec key st u st' :
  register_file key st = Some (u, st') ->
  reads st' = reads st /\ expanded st' = expanded st /\ cache_grows st st' /\
  is_Some (CachedRelation st' !! key).
Proof.
  unfold register_file. intros H. bind_inv H. mprim Hm.
  destruct (CachedRelation _ !! key) as [v|] eqn:Hc.
  - mprim H. repeat split; [apply cache_grows_refl|rewrite Hc; eauto].
  - bind_inv H. bind_inv H. mprim Hm. mprim Hm0. mprim H. cbn.
    split; [reflexivity|split; [reflexivity|split]].
    + intros k Hk. apply lookup_insert_is_Some'. right. exact Hk.
    + rewrite lookup_insert_eq. eauto.
Qed.

Lemma RY_layout E p st st1 st2 u :
  RX E (log_read p st) st1 -> register_file p st1 = Some (u, st2) -> RY E st st2.
Proof.
  intros (lr & le & R & X & P & G) Hreg. apply register_file_spec in Hreg as (R2 & X2 & G2 & Hp).
  exists (p :: lr), le. cbn in R, X.
  split; [rewrite R2, R, <- app_assoc; reflexivity|].
  split; [rewrite X2, X; reflexivity|].
  split; [|intros k Hk; apply G2, G, Hk].
  intros q Hq Hf. apply elem_of_cons in Hq as [->|Hq]; [right; exact Hp|left; exact (P q Hq Hf)].
Qed.

Lemma extend_loop_RY E self c i : forall content m subcs extcs st x st',
  extend_loop E self c i content m subcs extcs st = Some (inl x, st') -> RY E st st'.
Proof.
  induction i as [|i IH]; intros content m subcs extcs st x st' H; cbn [extend_loop] in H.
  - injection H as _ <-. apply RY_of_RX, RX_refl.
  - destruct m as [|v m]; [injection H as _ <-; apply RY_of_RX, RX_refl|].
    bind_inv H. unfold ParseBlock in Hm. apply ParseBlock_loop_RX in Hm.
    unfold bind at 1 in H. rewrite RawContent_eq in H.
    destruct (fs E !! _) as [b|]; [|discriminate H].
    bind_inv H. apply ParseExtend_RX in Hm0.
    destruct a0 as [[[content' m'] extcs'] subcs']. cbv beta iota in H.
    bind_inv H. apply IH in H.
    eapply RY_trans; [apply RY_of_RX; exact Hm|].
    eapply RY_trans; [eapply RY_layout; eassumption|exact H].
Qed.

Lemma reads_keep_CFR self c o content clips st r st' :
  ContainsFunctionResult self c o content clips st = Some (r, st') -> reads st' = reads st.
Proof.
  intros H. eapply (pres_CFR (fun a b => reads b = reads a)); [exp_same ..|exact H].
Qed.

Lemma reads_keep_subcs_loop E self c o items tmpl clips st r st' :
  subcs_loop E self c o items tmpl clips st = Some (r, st') -> reads st' = reads st.
Proof.
  intros H. eapply (pres_subcs_loop (fun a b => reads b = reads a)); [exp_same ..|exact H].
Qed.

Lemma reads_keep_extcs_loop E self c o relp items tmpl clips st r st' :
  extcs_loop E self c o relp items tmpl clips st = Some (r, st') -> reads st' = reads st.
Proof.
  intros H. eapply (pres_extcs_loop (fun a b => reads b = reads a)); [exp_same ..|exact H].
Qed.

Lemma CFR_grows self c o content clips st r st' :
  ContainsFunctionResult self c o content clips st = Some (r, st') -> cache_grows st st'.
Proof.
  intros H. eapply (pres_CFR cache_grows); [cg_tac ..|exact H].
Qed.

Lemma parse_reads_cached E self c name st t st' :
  parse E self c name st = Some ((Some t, None), st') ->
  exists lr, reads st' = (reads st ++ lr)%list /\
    forall p, p ∈ lr -> p ∈ dom (fs E) -> is_Some (CachedRelation st' !! p).
Proof.
  intros H. pose proof H as Hx. apply parse_expanded_cached in Hx as (l & Hl & Hc).
  unfold parse in H. bind_inv H. mprim Hm. bind_inv H.
  destruct (CachedRelation _ !! TmplPath self c (name +:+ Ext self)) as [rel|]; [destruct a as [t0|]|].
  1: { mprim Hm. bind_inv H. mprim Hm. bind_inv H. mprim Hm. mprim H.
       exists []. split; [rewrite app_nil_r; reflexivity|intros p Hp; apply elem_of_nil in Hp; contradiction]. }
  all: mprim Hm; bind_inv H; mprim Hm; bind_inv H; rewrite RawContent_eq in Hm; injection Hm as <- <-;
    destruct (fs E !! _) as [b|] eqn:Hf; cbv beta iota in H; [|mprim H; discriminate].
  all: bind_inv H;
    lazymatch type of H with (match ?x with _ => _ end) _ = _ => destruct x as [[[c1 s1] e1]|err] eqn:Hx end;
    [|mprim H; discriminate]; subst; apply extend_loop_RY in Hm.
  all: bind_inv H; apply CST_RX, RY_of_RX in Hm0;
    lazymatch type of H with (match ?x with _ => _ end) _ = _ => destruct x as [c2 s2] end; cbv beta iota in H;
    bind_inv H; pose proof Hm1 as Hr1; pose proof Hm1 as Hg0; apply expanded_keep_CFR in Hm1;
    apply reads_keep_CFR in Hr1; apply CFR_grows in Hg0;
    lazymatch type of H with (match ?x with _ => _ end) _ = _ => destruct x as [c3 cl3] end; cbv beta iota in H;
    lazymatch type of H with context [TParse ?E0 ?t0 ?x] => destruct (TParse E0 t0 x) as [[tm|] [e0|]] end;
    try (mprim H; discriminate).
  all: bind_inv H;
    lazymatch type of H with (match ?x with _ => _ end) _ = _ => destruct x as [[tm1 cl1] [e5|]] end;
    [mprim H; discriminate|];
    pose proof Hm2 as Hs; pose proof Hm2 as Hr2; apply expanded_keep_subcs_loop in Hm2;
    apply reads_keep_subcs_loop in Hr2; apply subcs_loop_caches in Hs; destruct Hs as [Hg1 _];
    bind_inv H;
    lazymatch type of H with (match ?x with _ => _ end) _ = _ => destruct x as [[tm2 cl2] [e6|]] end;
    [mprim H; discriminate|];
    pose proof Hm3 as Hg2; pose proof Hm3 as Hr3; apply expanded_keep_extcs_loop in Hm3;
    apply reads_keep_extcs_loop in Hr3; apply extcs_loop_grows in Hg2;
    bind_inv H; bind_d H as []; bind_d H as []; mprim H;
    repeat match goal with Hx : _ = Some (_, _) |- _ => progress mprim Hx end.
  all: destruct (RY_trans _ _ _ _ Hm Hm0) as (lr & le & R & X & P & _);
    exists (TmplPath self c (name +:+ Ext self) :: lr); split;
    [ cbn; rewrite Hr3, Hr2, Hr1, R; cbn; rewrite <- app_assoc; reflexivity
    | intros p Hin Hd;
      apply elem_of_cons in Hin as [->|Hin]; [cbn; rewrite lookup_insert_eq; eauto|];
      destruct (P p Hin Hd) as [He|He];
      [ apply Hc; cbn in Hl, X; rewrite Hm3, Hm2, Hm1, X in Hl; apply app_inv_head in Hl; subst le; exact He
      | cbn; apply lookup_insert_is_Some'; right; apply Hg2, Hg1, Hg0, He ] ].
Qed.

(** After a successful compile, a delete, modify or rename event on the
    page's file or on any readable file the compile read (included
    sub-templates and the layouts of its extend chain) empties the
    cache. *)
Theorem file_event_after_compile_clears_cache E self c name st t st' typ event :
  parse E self c name st = Some ((Some t, None), st') ->
  (event = "delete" \/ event = "modify" \/ event = "rename") -> typ <> "dir" ->
  exists lr, reads st' = (reads st ++ lr)%list /\
    forall p, p = TmplPath self c (name +:+ Ext self) \/ (p ∈ lr /\ p ∈ dom (fs E)) ->
      on_file_event p typ event st' = Some (tt, set_cache ∅ st').
Proof.
  intros H He Ht.
  destruct (parse_funcs E self c name st t None st' H) as (q & _ & _ & Hk).
  destruct (Hk eq_refl) as (rel & ti & Hkey & _).
  destruct (parse_reads_cached E self c name st t st' H) as (lr & Hr & Hc).
  exists lr. split; [exact Hr|]. intros p Hp. apply on_file_event_cached; [exact He|exact Ht|].
  destruct Hp as [->|[Hp Hd]]; [rewrite Hkey; eauto|exact (Hc p Hp Hd)].
Qed.



Lemma mt_shift {R} r : no_bol r = true -> forall pos d s cs (k k' : nat -> string -> caps -> option R),
  (forall p s' cs', k' (p + d) s' cs' = k p s' cs') -> mt r (pos + d) s cs k' = mt r pos s cs k.
Proof.
  induction r as [l|p|p [|]|r1 IH1 r2 IH2|r1 IH|i r1 IH|]; intros Hb pos d s cs k k' Hk; cbn in Hb |- *.
  - destruct (strip_prefix l s); [|reflexivity]. rewrite <- Hk. f_equal. lia.
  - destruct s as [|c s]; [reflexivity|]. destruct (p c); [|reflexivity]. apply (Hk (S pos)).
  - revert pos cs. induction s as [|c s IHs]; intros pos cs; [apply Hk|].
    destruct (p c); [|apply Hk]. specialize (IHs (S pos) cs). cbn in IHs. rewrite IHs, Hk. reflexivity.
  - revert pos cs. induction s as [|c s IHs]; intros pos cs; rewrite Hk; [reflexivity|].
    destruct (k pos _ cs); [reflexivity|]. destruct (p c); [|reflexivity].
    specialize (IHs (S pos) cs). cbn in IHs. exact IHs.
  - apply andb_prop in Hb as [Hb1 Hb2]. apply IH1; [exact Hb1|]. intros p s' cs'. apply IH2; assumption.
  - rewrite (IH Hb pos d s cs k k' Hk), Hk. reflexivity.
  - apply IH; [exact Hb|]. intros p s' cs'. rewrite Hk. do 4 f_equal. lia.
  - discriminate Hb.
Qed.

Lemma match_at_shift r : no_bol r = true -> forall pos s, match_at r pos s = match_at r 0 s.
Proof.
  intros Hb pos s. unfold match_at. change pos with (0 + pos) at 1.
  apply (mt_shift r Hb 0 pos s []). intros p s' cs'. f_equal. f_equal. lia.
Qed.

Lemma replace_scan_shift r f : no_bol r = true -> forall s pos skip,
  replace_scan r f pos skip s = replace_scan r f 0 skip s.
Proof.
  intros Hb s. induction s as [|c s IH]; intros pos skip; [reflexivity|].
  destruct skip as [|skip]; cbn [replace_scan].
  - rewrite (match_at_shift r Hb pos). destruct (match_at r 0 _) as [[[|n] cs]|];
      rewrite (IH (S pos)), (IH 1); reflexivity.
  - rewrite (IH (S pos)), (IH 1). reflexivity.
Qed.

Lemma mt_greedy_run {R} p u c t cs (k : nat -> string -> caps -> option R) x :
  str_all p u = true -> p c = false -> forall pos,
  k (String.length u + pos) (String c t) cs = Some x -> mt (RStar p true) pos (u +:+ String c t) cs k = Some x.
Proof.
  intros Hu Hc. induction u as [|a u IH]; intros pos Hk.
  - change ("" +:+ String c t) with (String c t). cbn. rewrite Hc. exact Hk.
  - cbn in Hu. apply andb_prop in Hu as [Ha Hu]. rewrite append_String. cbn. rewrite Ha.
    specialize (IH Hu (S pos)). cbn in IH. rewrite IH; [reflexivity|].
    rewrite <- Hk. f_equal. cbn. lia.
Qed.

Lemma rpl_split pos s :
  match_at (rplTagRegex std0) pos s =
  mt rpl_pre pos s [] (fun p1 s1 c1 =>
    mt (RChar (not_byte dqc)) p1 s1 c1 (fun p2 s2 c2 =>
      mt (RStar (not_byte dqc) true) p2 s2 c2 (fun p3 s3 c3 =>
        mt rpl_post p3 s3 ((1, stake (p3 - p1) s1) :: c3) (fun p4 _ c4 => Some (p4 - pos, c4))))).
Proof. reflexivity. Qed.

Lemma rpl_pre_match (K : nat -> string -> caps -> option (nat * caps)) w pos :
  mt rpl_pre pos ("{{Block " +:+ dq +:+ w) [] K = K (pos + 9) w [].
Proof.
  simpl. change ("" +:+ w) with w. f_equal. lia.
Qed.

Lemma mt_char {R} p pos a w cs (K : nat -> string -> caps -> option R) :
  mt (RChar p) pos (String a w) cs K = if p a then K (S pos) w cs else None.
Proof. reflexivity. Qed.

Lemma rpl_post_match {R} (K : nat -> string -> caps -> option R) t pos cs :
  mt rpl_post pos (dq +:+ "/}}" +:+ t) cs K = K (pos + 4) t cs.
Proof. simpl. change ("" +:+ t) with t. f_equal. lia. Qed.

Lemma rpl_match n t : n <> "" -> str_all (not_byte dqc) n = true -> forall pos,
  match_at (rplTagRegex std0) pos (ph n +:+ t) = Some (String.length (ph n), [(1, n)]).
Proof.
  intros Hn Hq pos. destruct n as [|a n']; [congruence|].
  cbn in Hq. apply andb_prop in Hq as [Ha Hq].
  rewrite rpl_split. unfold ph. rewrite !append_assoc_str.
  rewrite rpl_pre_match, append_String, mt_char, Ha.
  change (dq +:+ "/}}" +:+ t) with (String dqc ("/}}" +:+ t)).
  erewrite mt_greedy_run; [reflexivity|exact Hq|reflexivity|].
  change (String dqc ("/}}" +:+ t)) with (dq +:+ "/}}" +:+ t). rewrite rpl_post_match.
  f_equal. f_equal.
  - rewrite !length_append_str. cbn. lia.
  - f_equal. f_equal. replace (String.length n' + S (pos + 9) - (pos + 9)) with (String.length (String a n')) by (cbn; lia).
    rewrite <- append_String. apply stake_app_str.
Qed.

Lemma replace_scan_at_match r f w t pos cs : w <> "" ->
  match_at r pos (w +:+ t) = Some (String.length w, cs) ->
  replace_scan r f pos 0 (w +:+ t) = f w +:+ replace_scan r f (String.length w + pos) 0 t.
Proof.
  intros Hw H. destruct w as [|c w']; [congruence|]. rewrite append_String in *.
  cbn [replace_scan]. rewrite H. cbn [String.length].
  rewrite <- append_String. change (S (String.length w')) with (String.length (String c w')).
  rewrite stake_app_str.
  rewrite replace_scan_skip. f_equal. f_equal. cbn. lia.
Qed.

Lemma index_nodq n x : str_all (not_byte dqc) n = true -> index dq (n +:+ dq +:+ x) = Some (String.length n).
Proof.
  induction n as [|a n IH]; intros Hn; [reflexivity|].
  cbn in Hn. apply andb_prop in Hn as [Ha Hn]. rewrite append_String. cbn [index].
  unfold has_prefix. cbn [strip_prefix dq]. unfold not_byte in Ha.
  rewrite Ascii.eqb_sym. apply negb_true_iff in Ha. rewrite Ha, IH by exact Hn. reflexivity.
Qed.

Lemma placeholder_name_ph n : str_all (not_byte dqc) n = true -> placeholder_name (ph n) = n.
Proof.
  intros Hq. unfold placeholder_name, ph.
  replace (index dq ("{{Block " +:+ dq +:+ n +:+ dq +:+ "/}}")) with (Some 8) by reflexivity.
  change (sdrop 9 ("{{Block " +:+ dq +:+ n +:+ dq +:+ "/}}")) with (n +:+ dq +:+ "/}}").
  rewrite index_nodq by exact Hq. apply stake_app_str.
Qed.

(** A self-closing placeholder [{{Block "n"/}}] (non-empty name without a
    double quote) is replaced by the descendant's value for [n], or by the
    empty string when there is none; the text before it (without an opening
    brace) is kept and the rest is filled the same way. *)
Theorem fill_placeholders_one extcs P n R :
  plain P = true -> n <> "" -> str_all (not_byte dqc) n = true ->
  fill_placeholders std0 (P +:+ ph n +:+ R) extcs =
    P +:+ default "" (extcs !! n) +:+ fill_placeholders std0 R extcs.
Proof.
  intros HP Hn Hq. unfold fill_placeholders, ReplaceAllFunc.
  rewrite (replace_scan_plain _ _ rpl_brace P) by exact HP. f_equal.
  rewrite (replace_scan_at_match _ _ (ph n) R _ [(1, n)]); [| unfold ph; destruct n; discriminate | apply rpl_match; assumption].
  rewrite placeholder_name_ph by exact Hq. f_equal.
  apply replace_scan_shift. reflexivity.
Qed.

Lemma strip_post_eq {R} (K : nat -> string -> caps -> option R) pos s cs :
  mt strip_post pos s cs K =
  match strip_prefix strip_close s with Some s' => K (pos + 10) s' cs | None => None end.
Proof.
  change strip_close with ("{{" +:+ "/" +:+ "Strip" +:+ "}}").
  cbn [strip_post cats mt].
  rewrite strip_prefix_app. destruct (strip_prefix "{{" s) as [s1|]; [|reflexivity].
  rewrite strip_prefix_app. destruct (strip_prefix "/" s1) as [s2|]; [|reflexivity].
  rewrite strip_prefix_app. destruct (strip_prefix "Strip" s2) as [s3|]; [|reflexivity].
  destruct (strip_prefix "}}" s3) as [s4|]; [|reflexivity].
  f_equal. cbn. lia.
Qed.

Lemma strip_prefix_none_app l a b :
  strip_prefix l a = None -> String.length l <= String.length a -> strip_prefix l (a +:+ b) = None.
Proof.
  revert a. induction l as [|x l IH]; intros a H Hl; [discriminate H|].
  destruct a as [|y a]; [cbn in Hl; lia|]. rewrite append_String. cbn in H |- *.
  destruct (Ascii.eqb x y); [apply IH; [exact H|cbn in Hl; lia]|reflexivity].
Qed.

Lemma mt_lazy_until {R} (k : nat -> string -> caps -> option R) X u cs x
  (Hk : forall p s, strip_prefix strip_close s = None -> k p s cs = None) :
  forall pos, index strip_close (X +:+ strip_close) = Some (String.length X) ->
  k (String.length X + pos) (strip_close +:+ u) cs = Some x ->
  mt (RStar any_byte false) pos (X +:+ strip_close +:+ u) cs k = Some x.
Proof.
  induction X as [|c X IH]; intros pos Hi Hx.
  - apply mt_lazy_hit; [discriminate|exact Hx].
  - rewrite append_String in Hi |- *. cbn [index] in Hi.
    destruct (has_prefix strip_close (String c (X +:+ strip_close))) eqn:Hp; [discriminate Hi|].
    destruct (index strip_close (X +:+ strip_close)) as [m|] eqn:Hm; [|discriminate Hi].
    injection Hi as Hi. subst m.
    rewrite mt_lazy_step, Hk.
    + cbv [any_byte]. apply IH; [reflexivity|]. rewrite <- Hx. f_equal. cbn. lia.
    + unfold has_prefix in Hp.
      rewrite <- append_assoc_str, <- append_String. apply strip_prefix_none_app.
      * destruct (strip_prefix _ _); [discriminate Hp|reflexivity].
      * cbn. rewrite length_append_str. cbn. lia.
Qed.

Lemma strip_prefix_self l w : strip_prefix l (l +:+ w) = Some w.
Proof. induction l as [|x l IH]; [reflexivity|]. rewrite append_String. cbn [strip_prefix]. rewrite Ascii.eqb_refl. exact IH. Qed.

Lemma mt_lit {R} l pos w cs (K : nat -> string -> caps -> option R) :
  mt (RLit l) pos (l +:+ w) cs K = K (pos + String.length l) w cs.
Proof. cbn [mt]. rewrite strip_prefix_self. reflexivity. Qed.

Lemma strip_split pos s :
  match_at (stripTagRegex std0) pos s =
  mt (RLit "{{") pos s [] (fun p1 s1 c1 => mt (RLit "Strip") p1 s1 c1 (fun p2 s2 c2 =>
    mt (RLit "}}") p2 s2 c2 (fun p3 s3 c3 => mt (RStar any_byte false) p3 s3 c3 (fun p4 s4 c4 =>
      mt strip_post p4 s4 ((1, stake (p4 - p3) s3) :: c4) (fun p5 _ c5 => Some (p5 - pos, c5)))))).
Proof. reflexivity. Qed.

Lemma strip_match X u pos :
  index strip_close (X +:+ strip_close) = Some (String.length X) ->
  match_at (stripTagRegex std0) pos ("{{" +:+ "Strip" +:+ "}}" +:+ X +:+ strip_close +:+ u) =
    Some (String.length X + 19, [(1, X)]).
Proof.
  intros Hi. rewrite strip_split, !mt_lit.
  apply mt_lazy_until; [intros p s Hs; rewrite strip_post_eq, Hs; reflexivity|exact Hi|].
  rewrite strip_post_eq, strip_prefix_self.
  cbn [String.length].
  replace (String.length X + (pos + 2 + 5 + 2) - (pos + 2 + 5 + 2)) with (String.length X) by lia.
  rewrite stake_app_str. f_equal. f_equal. lia.
Qed.

Lemma sdrop_len_app a b : sdrop (String.length a) (a +:+ b) = b.
Proof. induction a as [|x a IH]; [reflexivity|]. exact IH. Qed.

Lemma strip_value E X :
  strip_body E (match strip_prefix (DelimLeft std0 +:+ StripTag std0 +:+ DelimRight std0)
                        ("{{Strip}}" +:+ X +:+ strip_close) with
                | Some b' =>
                    let t := DelimLeft std0 +:+ "/" +:+ StripTag std0 +:+ DelimRight std0 in
                    if Nat.leb (String.length t) (String.length b') &&
                       String.eqb (sdrop (String.length b' - String.length t) b') t
                    then stake (String.length b' - String.length t) b' else b'
                | None => "{{Strip}}" +:+ X +:+ strip_close
                end) = strip_body E X.
Proof.
  change (DelimLeft std0 +:+ StripTag std0 +:+ DelimRight std0) with "{{Strip}}".
  rewrite strip_prefix_self. cbv zeta.
  change (DelimLeft std0 +:+ "/" +:+ StripTag std0 +:+ DelimRight std0) with strip_close.
  rewrite length_append_str.
  replace (String.length X + String.length strip_close - String.length strip_close) with (String.length X) by lia.
  rewrite sdrop_len_app, String.eqb_refl, stake_app_str.
  replace (Nat.leb (String.length strip_close) (String.length X + String.length strip_close)) with true
    by (symmetry; apply Nat.leb_le; lia).
  reflexivity.
Qed.

(** Outside debug mode, a section [{{Strip}}X{{/Strip}}], where [X] holds
    no closing Strip tag, is replaced by the minified [X]; the text before
    it (without an opening brace) is kept and the rest is stripped the same
    way. *)
Theorem strip_section E P X R :
  plain P = true -> index strip_close (X +:+ strip_close) = Some (String.length X) ->
  strip E std0 (P +:+ "{{Strip}}" +:+ X +:+ "{{/Strip}}" +:+ R) = P +:+ strip_body E X +:+ strip E std0 R.
Proof.
  intros HP Hi. unfold strip. change (debug std0) with false. cbv iota. unfold ReplaceAllFunc.
  rewrite (replace_scan_plain _ _ strip_brace P) by exact HP. f_equal.
  replace ("{{Strip}}" +:+ X +:+ "{{/Strip}}" +:+ R) with (("{{Strip}}" +:+ X +:+ strip_close) +:+ R)
    by (rewrite !append_assoc_str; reflexivity).
  rewrite (replace_scan_at_match _ _ _ R _ [(1, X)]); [|discriminate|].
  - rewrite strip_value. f_equal. apply replace_scan_shift. reflexivity.
  - rewrite !append_assoc_str. rewrite (strip_match X R _ Hi). f_equal. f_equal.
    rewrite !length_append_str. cbn. lia.
Qed.

(* ===================================================================== *)
(** * Witnesses                                                           *)
(* ===================================================================== *)

Lemma cache_hit_skips_pipeline_witness :
  CachedRelation st_a !! TmplPath std0 ctx0 ("a" +:+ Ext std0) = Some {| Tpl0 := 0; Tpl1 := 1 |} /\
  heap st_a !! Tpl0 {| Tpl0 := 0; Tpl1 := 1 |} = Some ti_a /\ Template ti_a = Some tmpl_a /\
  let tmpl := Funcs tmpl_a (setFunc 0 (c_funcs ctx0 ∪ default ∅ (getFuncs std0))) in
  exists st',
    parse E_a std0 ctx0 "a" st_a = Some ((Some tmpl, None), st') /\
    (forall d, Render E_a std0 ctx0 "a" d st_a =
               Some ((let '(out, e) := exec E_a tmpl (tname tmpl) d in Returned out e), st')) /\
    (forall d, Fetch E_a std0 ctx0 "a" d st_a = Some (execute E_a (Some tmpl) d, st')) /\
    reads st' = reads st_a /\ expanded st' = expanded st_a /\ calls st' = calls st_a /\
    CachedRelation st' = CachedRelation st_a /\
    tname tmpl = tname tmpl_a /\ tdefs tmpl = tdefs tmpl_a.
Proof.
  assert (H1 : CachedRelation st_a !! TmplPath std0 ctx0 ("a" +:+ Ext std0) = Some {| Tpl0 := 0; Tpl1 := 1 |})
    by (vm_compute; reflexivity).
  assert (H2 : heap st_a !! Tpl0 {| Tpl0 := 0; Tpl1 := 1 |} = Some ti_a) by (vm_compute; reflexivity).
  assert (H3 : Template ti_a = Some tmpl_a) by (vm_compute; reflexivity).
  split; [exact H1|split; [exact H2|split; [exact H3|]]].
  exact (cache_hit_skips_pipeline E_a std0 ctx0 "a" st_a _ _ _ H1 H2 H3).
Defined.

Lemma parse_binds_block_helpers_witness :
  parse E_a std0 ctx0 "a" st0 = Some ((Some tmpl_a, None), st_a) /\
  exists p,
    tfuncs tmpl_a !! "hasBlock" = Some (FHasBlock p) /\
    tfuncs tmpl_a !! "hasAnyBlock" = Some (FHasAnyBlock p) /\
    (None = @None string -> exists rel ti,
       CachedRelation st_a !! TmplPath std0 ctx0 ("a" +:+ Ext std0) = Some rel /\
       Tpl0 rel = p /\ heap st_a !! p = Some ti /\ Template ti = Some tmpl_a) /\
    (forall h bs, call_hasBlock h p bs = true <->
                  Forall (fun b => b ∈ Blocks (default (NewTplInfo None) (h !! p))) bs) /\
    (forall h bs, call_hasAnyBlock h p bs = true <->
                  Exists (fun b => b ∈ Blocks (default (NewTplInfo None) (h !! p))) bs).
Proof.
  assert (H : parse E_a std0 ctx0 "a" st0 = Some ((Some tmpl_a, None), st_a)) by (vm_compute; reflexivity).
  split; [exact H|].
  exact (parse_binds_block_helpers E_a std0 ctx0 "a" st0 tmpl_a None st_a H).
Defined.

Lemma Fetch_panics_when_read_error_does_not_parse_witness :
  exists st', Fetch (mkEnv ∅) std0 ctx0 "{{x" tt st0 = Some (Panicked, st').
Proof.
  apply (Fetch_panics_when_read_error_does_not_parse (mkEnv ∅) std0 ctx0 "{{x" tt st0);
    [reflexivity|reflexivity|intros fm; vm_compute; discriminate].
Defined.




Lemma self_include_example :
  match Fetch (mkEnv files_self) std0 ctx0 "a" tt st0 with
  | Some (o, st') => o = Returned (Q "x{{template '/tpl/a.html' .}}y") None /\ expanded st' = ["/tpl/a.html"]
  | None => False
  end.
Proof. vm_compute. split; reflexivity. Qed.

Lemma unreadable_include_replaces_whole_content :
  option_map fst (Fetch (mkEnv files_missing_inc) std0 ctx0 "p" tt st0) =
    Some (Returned "RenderTemplate /tpl/m.html read err: open /tpl/m.html: no such file or directory" None).
Proof. vm_compute. reflexivity. Qed.



(** The whole parse of the C1 chain: block ["b"] is compiled as ["aPc"]. *)
Example super_splice_example :
  tdefs_of (parse E_super std0 ctx0 "child" st0) =
    Some [("/tpl/child.html", Q "{{template 'b' .}}"); ("b", Q "{{define 'b'}}aPc{{end}}")].
Proof. vm_compute. reflexivity. Qed.



Lemma only_layout_blocks_survive_witness :
  layout_key (FindAll (blkTagRegex std0) (fill_placeholders std0 layout_orphan extcs_orphan)) "z".
Proof.
  destruct (ParseExtend E_orphan std0 (fuel0 E_orphan) ctx0 layout_orphan extcs_orphan "" ∅ st0)
    as [[r st']|] eqn:H.
  - apply (only_layout_blocks_survive _ _ _ _ _ _ _ _ _ r st' H).
    vm_compute in H. injection H as <- <-. vm_compute. eexists. reflexivity.
  - vm_compute in H. discriminate.
Defined.

(** The layout [p] names blocks ["a"] and ["q"] only; block ["z"], defined
    in the child (nested in ["a"] and on its own), is compiled and is the
    whole document. *)
Lemma orphan_nested_block_survives :
  tdefs_of (parse E_orphan std0 ctx0 "c" st0) =
    Some [("/tpl/c.html", Q "{{template 'z' .}}"); ("z", Q "{{define 'z'}}Z{{end}}")].
Proof. vm_compute. reflexivity. Qed.

Lemma ClearCache_forces_reread_witness :
  exists r st2, ClearCache st_a = Some (tt, set_cache ∅ st_a) /\
  parse E_a std0 ctx0 "a" (set_cache ∅ st_a) = Some (r, st2) /\
  CachedRelation (set_cache ∅ st_a) = ∅ /\ heap (set_cache ∅ st_a) = heap st_a /\
  exists l, reads st2 = (reads st_a ++ TmplPath std0 ctx0 ("a" +:+ Ext std0) :: l)%list.
Proof.
  destruct (parse E_a std0 ctx0 "a" (set_cache ∅ st_a)) as [[r st2]|] eqn:Hp;
    [|vm_compute in Hp; discriminate Hp].
  exists r, st2. split; [reflexivity|]. split; [reflexivity|].
  exact (ClearCache_forces_reread E_a std0 st_a tt (set_cache ∅ st_a) ctx0 "a" r st2 eq_refl Hp).
Defined.

Lemma Render_never_panics_witness :
  exists o st', Render E_a std0 ctx0 "a" tt st0 = Some (o, st') /\ o <> Panicked.
Proof.
  destruct (Render E_a std0 ctx0 "a" tt st0) as [[o st']|] eqn:Hr; [|vm_compute in Hr; discriminate Hr].
  exists o, st'. split; [reflexivity|]. exact (Render_never_panics E_a std0 ctx0 "a" tt st0 o st' Hr).
Defined.



Lemma ParseBlock_last_definition_wins_witness :
  ParseBlock E_a std0 (fuel0 E_a) ctx0 content_bb ∅ ∅ st0 = Some ((∅, {["b" := "2"]}), st0) /\
  let ms := FindAll (blkTagRegex std0) content_bb in
  (forall k, Forall (fun v => m1 v <> k) ms -> ({["b" := "2"]} : gmap string string) !! k = (∅ : gmap string string) !! k) /\
  (forall ms1 v ms2, ms = (ms1 ++ v :: ms2)%list -> Forall (fun w => m1 w <> m1 v) ms2 ->
     FindAll (incTagRegex std0) (m2 v) = [] -> ({["b" := "2"]} : gmap string string) !! m1 v = Some (m2 v)).
Proof.
  assert (H : ParseBlock E_a std0 (fuel0 E_a) ctx0 content_bb ∅ ∅ st0 = Some ((∅, {["b" := "2"]}), st0))
    by (vm_compute; reflexivity).
  split; [exact H|]. exact (ParseBlock_last_definition_wins E_a std0 (fuel0 E_a) ctx0 content_bb ∅ ∅ st0 ∅ _ st0 H).
Defined.

Lemma ParseExtend_top_layout_defaults_witness :
  FindFirst (extTagRegex std0) layout_hy = [] /\
  Forall (fun v => extcs_x !! m1 v = None) (FindAll (blkTagRegex std0) (fill_placeholders std0 layout_hy extcs_x)) /\
  ParseExtend E_a std0 (fuel0 E_a) ctx0 layout_hy extcs_x "" ∅ st0 =
    Some ((fold_left (fun acc v => replace1 acc (m0 v) (m2 v))
             (FindAll (blkTagRegex std0) (fill_placeholders std0 layout_hy extcs_x))
             (fill_placeholders std0 layout_hy extcs_x), [], ∅, ∅), st0).
Proof.
  assert (H1 : FindFirst (extTagRegex std0) layout_hy = []) by (vm_compute; reflexivity).
  assert (H2 : Forall (fun v => extcs_x !! m1 v = None)
                 (FindAll (blkTagRegex std0) (fill_placeholders std0 layout_hy extcs_x))).
  { vm_compute. repeat constructor. }
  split; [exact H1|]. split; [exact H2|].
  exact (ParseExtend_top_layout_defaults E_a std0 (fuel0 E_a) ctx0 layout_hy extcs_x "" ∅ st0 H1 H2).
Defined.

Lemma parse_again_returns_same_witness :
  parse E_a std0 ctx0 "a" st0 = Some ((Some tmpl_a, None), st_a) /\
  parse E_a std0 ctx0 "a" st_a = Some ((Some tmpl_a, None), st_a).
Proof.
  assert (H : parse E_a std0 ctx0 "a" st0 = Some ((Some tmpl_a, None), st_a)) by (vm_compute; reflexivity).
  split; [exact H|]. exact (parse_again_returns_same E_a std0 ctx0 "a" st0 tmpl_a st_a H).
Defined.

Lemma file_event_after_compile_clears_cache_witness :
  parse E_a std0 ctx0 "a" st0 = Some ((Some tmpl_a, None), st_a) /\
  exists lr, reads st_a = (reads st0 ++ lr)%list /\
  forall p, p = TmplPath std0 ctx0 ("a" +:+ Ext std0) \/ (p ∈ lr /\ p ∈ dom (fs E_a)) ->
    on_file_event p "file" "modify" st_a = Some (tt, set_cache ∅ st_a).
Proof.
  assert (H : parse E_a std0 ctx0 "a" st0 = Some ((Some tmpl_a, None), st_a)) by (vm_compute; reflexivity).
  split; [exact H|].
  apply (file_event_after_compile_clears_cache E_a std0 ctx0 "a" st0 tmpl_a st_a "file" "modify" H).
  - right; left; reflexivity.
  - discriminate.
Defined.

Lemma fill_placeholders_one_witness :
  fill_placeholders std0 ("<" +:+ ph "x" +:+ "|" +:+ ph "y" +:+ ">") extcs_x =
    "<" +:+ "1" +:+ fill_placeholders std0 ("|" +:+ ph "y" +:+ ">") extcs_x.
Proof.
  apply (fill_placeholders_one extcs_x "<" "x" ("|" +:+ ph "y" +:+ ">")); [reflexivity|discriminate|reflexivity].
Defined.

Lemma strip_section_witness :
  strip E_a std0 ("<p>" +:+ "{{Strip}}" +:+ Q " <b> {{.X}} </b> " +:+ "{{/Strip}}" +:+ "</p>") =
    "<p>" +:+ strip_body E_a (Q " <b> {{.X}} </b> ") +:+ strip E_a std0 "</p>".
Proof.
  apply (strip_section E_a "<p>" (Q " <b> {{.X}} </b> ") "</p>"); [reflexivity|vm_compute; reflexivity].
Defined.
